(** * ID3 decision-tree induction (id3.py): a shallow embedding

    The development follows [src/id3.py].  Conventions of the embedding:

    - a csv row is a Python [dict] from attribute names to strings: a
      [gmap string string]; [row[attr]] on a missing key raises [KeyError];
    - a [Counter] is an association list in insertion order.  Python 2
      enumerates a dict (and a set) in an order it does not specify; the
      embedding fixes it to the order of first insertion;
    - Python floats are idealised as real numbers ([R]): [float(n)] is
      [INR n], [x / y] raises [ZeroDivisionError] when [y] is zero and
      [math.log(x, 2)] raises [ValueError] when [x] is not positive;
      where the rounding of the doubles decides, [entropy] is also given
      over IEEE binary64 numbers, in the module [binary64];
    - the methods are state passing over the [ID3] object and the [DTree]
      objects allocated so far, with an error result for exceptions;
    - [create_tree] recurses on fuel, the interpreter's recursion limit. *)

From Stdlib Require Import Reals Lra Lia.
From Stdlib Require Floats.
From stdpp Require Import gmap strings list.

#[local] Set Warnings "-clear-no-such-hyp".

#[local] Open Scope string_scope.
#[local] Open Scope list_scope.
#[local] Open Scope nat_scope.

(** ** Exceptions and results *)

Inductive exn : Type :=
  | KeyError (key : string)
  | ZeroDivisionError
  | ValueError
  | IndexError
  | AttributeError
  | StopIteration
  | RecursionLimit.

Inductive result (A : Type) : Type :=
  | Ok (a : A)
  | Raise (e : exn).
Arguments Ok {A} a.
Arguments Raise {A} e.

#[global] Instance result_ret : MRet result := @Ok.
#[global] Instance result_bind : MBind result := λ A B f m,
  match m with
  | Ok a => f a
  | Raise e => Raise e
  end.

(** ** Python values handed to [entropy] as its [value] argument *)

Inductive pyval : Type :=
  | PStr (s : string)
  | PBool (b : bool).

(** [isinstance(value, bool)] *)
Definition isinstance_bool (v : pyval) : bool :=
  match v with
  | PBool _ => true
  | PStr _ => false
  end.

(** [s == value] for a csv field [s]: a string never equals a boolean. *)
Definition py_eq (s : string) (v : pyval) : bool :=
  match v with
  | PStr t => bool_decide (s = t)
  | PBool _ => false
  end.

(** ** Rows and counters *)

Abbreviation row := (gmap string string).

(** [r[key]] *)
Definition getitem (r : row) (key : string) : result string :=
  match r !! key with
  | Some v => Ok v
  | None => Raise (KeyError key)
  end.

Abbreviation Counter := (list (string * nat)).

(** [counts[key]] of a [Counter]: zero for a missing key. *)
Fixpoint counter_get (c : Counter) (key : string) : nat :=
  match c with
  | [] => 0
  | (k, n) :: c' => if decide (key = k) then n else counter_get c' key
  end.

(** [counts[key] += 1] *)
Fixpoint counter_incr (key : string) (c : Counter) : Counter :=
  match c with
  | [] => [(key, 1)]
  | (k, n) :: c' =>
      if decide (key = k) then (k, S n) :: c' else (k, n) :: counter_incr key c'
  end.

(** [counts.keys()] and [sum(counts.values())] *)
Definition counter_keys (c : Counter) : list string := c.*1.
Definition counter_total (c : Counter) : nat := sum_list (c.*2).

(** ** Floating point primitives, over the reals *)

(** [x / y] *)
Definition py_div (x y : R) : result R :=
  if Req_dec_T y 0%R then Raise ZeroDivisionError else Ok (x / y)%R.

(** [math.log(x, 2)], which CPython computes as [log(x) / log(2)] *)
Definition math_log2 (x : R) : result R :=
  if Rle_dec x 0%R then Raise ValueError else Ok (ln x / ln 2)%R.

(** [max(l, key=key)]: the first element whose key no later element
    exceeds; [ValueError] on an empty sequence.  [ltb] is [<] on keys. *)
Fixpoint max_from {A K : Type} (ltb : K → K → bool) (key : A → K)
    (best : A) (l : list A) : A :=
  match l with
  | [] => best
  | x :: l' =>
      if ltb (key best) (key x) then max_from ltb key x l'
      else max_from ltb key best l'
  end.

Definition py_max {A K : Type} (ltb : K → K → bool) (key : A → K)
    (l : list A) : result A :=
  match l with
  | [] => Raise ValueError
  | x :: l' => Ok (max_from ltb key x l')
  end.

Definition Rltb (x y : R) : bool := if Rlt_dec x y then true else false.

(** ** The tree nodes of dtree.py *)

Abbreviation addr := nat.

Module dtree.

(** Modelled from the spec: the class [DTree] of dtree.py, which is not
    among the sources.  A node holds its split attribute (or, for a leaf,
    its label), the flag [leaf], the value of the parent's split attribute
    that reaches it ([None] for the root), the information gain that
    selected it, and its children keyed by their [parent_value].  The
    root is annotated with the ordered attribute list by
    [set_attributes].  [parent] is the ancestry link [add_child] sets. *)
Record DTree : Type := mkDTree {
  attribute : string;
  leaf : bool;
  parent_value : option string;
  information_gain : option R;
  children : gmap (option string) addr;
  parent : option addr;
  attribute_order : option (list string);
}.

(** Modelled from the spec: the constructor
    [DTree(attribute, leaf=False, parent_value=None, information_gain=None)]. *)
Definition new (attribute : string) (leaf : bool)
    (parent_value : option string) (information_gain : option R) : DTree :=
  mkDTree attribute leaf parent_value information_gain ∅ None None.

(** Modelled from the spec: [node.set_attributes(attributes)] annotates
    the node with the full ordered attribute list. *)
Definition set_attributes (attributes : list string) (node : DTree) : DTree :=
  mkDTree (attribute node) (leaf node) (parent_value node)
    (information_gain node) (children node) (parent node) (Some attributes).

(** The two field updates of [add_child]. *)
Definition with_child (key : option string) (child : addr) (node : DTree) : DTree :=
  mkDTree (attribute node) (leaf node) (parent_value node)
    (information_gain node) (<[key := child]> (children node)) (parent node)
    (attribute_order node).

Definition with_parent (p : addr) (node : DTree) : DTree :=
  mkDTree (attribute node) (leaf node) (parent_value node)
    (information_gain node) (children node) (Some p) (attribute_order node).

(** Modelled from the spec: [parent.add_child(node)] attaches [node] as
    the child of [parent] keyed by the node's [parent_value]. *)
Definition add_child (p n : addr) (objects : list DTree) : list DTree :=
  match objects !! n with
  | Some node =>
      alter (with_child (parent_value node) n) p
        (alter (with_parent p) n objects)
  | None => objects
  end.

(** Modelled from the spec: the property [attributes] of a node, the
    spec's usedAttributes: "the set of split attributes along the
    root-to-node path (tracked to know which attributes remain eligible
    further down a branch); stored/derivable from ancestry".  It is what
    [remaining_attributes] subtracts from the inducer's attributes; the
    list [set_attributes] stores is kept apart, in [attribute_order].
    A leaf tests no attribute.  [gas] bounds the walk up the parent
    links. *)
Fixpoint used_attributes (gas : nat) (objects : list DTree) (n : addr)
    : list string :=
  match gas with
  | 0 => []
  | S gas' =>
      match objects !! n with
      | None => []
      | Some node =>
          let above :=
            match parent node with
            | Some p => used_attributes gas' objects p
            | None => []
            end in
          if leaf node then above else above ++ [attribute node]
      end
  end.

(** Modelled from the spec: [node.attributes], the walk above with gas
    for every object. *)
Definition attributes (objects : list DTree) (n : addr) : list string :=
  used_attributes (length objects) objects n.

End dtree.

Abbreviation DTree := dtree.DTree.

(** ** The inducer object *)

Record ID3 : Type := mkID3 {
  dependent : string;
  attributes : list string;
  all_attributes : list string;
  data : list row;
  values : gmap string (list string);
  dtree : option addr;
}.

(** The Python world: the inducer [self] and the [DTree] objects
    allocated so far, addressed by their index. *)
Record state : Type := mkState {
  self : ID3;
  objects : list DTree;
}.

(** Methods that assign to [self] or touch the tree: state passing, with
    the state kept when an exception is raised. *)
Definition M (A : Type) : Type := state → result A * state.

#[global] Instance M_ret : MRet M := λ A a σ, (Ok a, σ).
#[global] Instance M_bind : MBind M := λ A B f m σ,
  match m σ with
  | (Ok a, σ') => f a σ'
  | (Raise e, σ') => (Raise e, σ')
  end.

Definition lift {A : Type} (r : result A) : M A := λ σ, (r, σ).
Definition gets {A : Type} (f : state → A) : M A := λ σ, (Ok (f σ), σ).
Definition modify (f : state → state) : M unit := λ σ, (Ok (), f σ).

(** [for x in l: body(x)] *)
Fixpoint for_each {A : Type} (l : list A) (body : A → M unit) : M unit :=
  match l with
  | [] => mret ()
  | x :: l' => body x ≫= λ _, for_each l' body
  end.

(** ** Counting *)

(** [attr_counts], lines 177-185; [counts] is the counter so far. *)
Fixpoint attr_counts_loop (counts : Counter) (subset : list row)
    (attr : string) : result Counter :=
  match subset with
  | [] => Ok counts
  | r :: rest =>
      v ← getitem r attr;
      attr_counts_loop (counter_incr v counts) rest attr
  end.

Definition attr_counts (subset : list row) (attr : string) : result Counter :=
  attr_counts_loop [] subset attr.

(** [value_occurrences], lines 162-175.  [row[attr]] is read before the
    [isinstance] test, so a missing key raises whatever [value] is. *)
Fixpoint value_occurrences_loop (this : ID3) (counts : Counter)
    (subset : list row) (attr : string) (value : pyval) : result Counter :=
  match subset with
  | [] => Ok counts
  | r :: rest =>
      v ← getitem r attr;
      if py_eq v value || isinstance_bool value then
        d ← getitem r (dependent this);
        value_occurrences_loop this (counter_incr d counts) rest attr value
      else value_occurrences_loop this counts rest attr value
  end.

Definition value_occurrences (this : ID3) (subset : list row) (attr : string)
    (value : pyval) : result Counter :=
  value_occurrences_loop this [] subset attr value.

(** [filter_subset], lines 132-139; [value] is a [parent_value]. *)
Fixpoint filter_subset (subset : list row) (attr : string)
    (value : option string) : result (list row) :=
  match subset with
  | [] => Ok []
  | r :: rest =>
      v ← getitem r attr;
      rest' ← filter_subset rest attr value;
      Ok (if bool_decide (Some v = value) then r :: rest' else rest')
  end.

(** ** Entropy and information gain *)

(** The loop of [entropy], lines 157-159, over the entries of [occs]. *)
Fixpoint entropy_loop (entropy : R) (total : R) (occs : Counter) : result R :=
  match occs with
  | [] => Ok entropy
  | (dv, n) :: rest =>
      proportion ← py_div (INR n) total;
      l ← math_log2 proportion;
      entropy_loop (entropy + - (proportion * l))%R total rest
  end.

(** [entropy], lines 153-160 *)
Definition entropy (this : ID3) (subset : list row) (attr : string)
    (value : pyval) : result R :=
  occs ← value_occurrences this subset attr value;
  let total := INR (counter_total occs) in
  entropy_loop 0%R total occs.

(** [get_base_entropy], lines 149-151 *)
Definition get_base_entropy (this : ID3) (subset : list row) : result R :=
  entropy this subset (dependent this) (PBool true).

(** The loop of [information_gain], lines 145-146. *)
Fixpoint information_gain_loop (this : ID3) (subset : list row) (attr : string)
    (occs : Counter) (total : R) (gain : R) (vals : list string) : result R :=
  match vals with
  | [] => Ok gain
  | value :: rest =>
      weight ← py_div (INR (counter_get occs value)) total;
      e ← entropy this subset attr (PStr value);
      information_gain_loop this subset attr occs total
        (gain + - (weight * e))%R rest
  end.

(** [self.values[attr]] *)
Definition values_of (this : ID3) (attr : string) : result (list string) :=
  match values this !! attr with
  | Some vals => Ok vals
  | None => Raise (KeyError attr)
  end.

(** [information_gain], lines 141-147 *)
Definition information_gain (this : ID3) (subset : list row) (attr : string)
    : result R :=
  gain ← get_base_entropy this subset;
  occs ← attr_counts subset attr;
  let total := INR (counter_total occs) in
  vals ← values_of this attr;
  information_gain_loop this subset attr occs total gain vals.

(** ** Loading the table *)

(** [dict(pairs)]: a later pair with the same key replaces an earlier one. *)
Definition dict_of_pairs (pairs : list (string * string)) : row :=
  foldl (λ d kv, <[kv.1 := kv.2]> d) ∅ pairs.

(** [set(l)], enumerated in the order of first occurrence. *)
Definition py_set (l : list string) : list string :=
  reverse (remove_dups (reverse l)).

(** [parse_csv], lines 86-106, on the rows [csv.reader] yields; the
    dependent attribute is the last column ([dependent_index=-1]). *)
Definition parse_csv (table : list (list string)) : M unit :=
  match table with
  | [] => lift (Raise StopIteration)
  | header :: rows =>
      let rows' := (λ r, dict_of_pairs (zip header r)) <$> rows in
      match last header with
      | None => lift (Raise IndexError)
      | Some dep =>
          modify (λ σ,
            mkState
              (mkID3 dep (filter (λ a, a ≠ dep) header) header rows'
                 (values (self σ)) (dtree (self σ)))
              (objects σ))
      end
  end.

(** The loop of [get_distinct_values], lines 114-115. *)
Fixpoint distinct_values_loop (rows : list row) (vals : gmap string (list string))
    (attrs : list string) : result (gmap string (list string)) :=
  match attrs with
  | [] => Ok vals
  | attr :: rest =>
      column ← mapM (λ r, getitem r attr) rows;
      distinct_values_loop rows (<[attr := py_set column]> vals) rest
  end.

(** [get_distinct_values], lines 108-116 *)
Definition get_distinct_values : M unit := λ σ,
  let this := self σ in
  match distinct_values_loop (data this) ∅ (all_attributes this) with
  | Ok vals =>
      (Ok (),
       mkState
         (mkID3 (dependent this) (attributes this) (all_attributes this)
            (data this) vals (dtree this))
         (objects σ))
  | Raise e => (Raise e, σ)
  end.

(** ** Tree construction *)

(** Allocation of a fresh [DTree] object. *)
Definition alloc (node : DTree) : M addr := λ σ,
  (Ok (length (objects σ)), mkState (self σ) (objects σ ++ [node])).

(** Reading a field of the object at [n]. *)
Definition load (n : addr) : M DTree := λ σ,
  match objects σ !! n with
  | Some node => (Ok node, σ)
  | None => (Raise AttributeError, σ)
  end.

(** [self.dtree = node] *)
Definition set_dtree (n : addr) : M unit :=
  modify (λ σ,
    let this := self σ in
    mkState
      (mkID3 (dependent this) (attributes this) (all_attributes this)
         (data this) (values this) (Some n))
      (objects σ)).

Section Inducer.

(** The property [attributes] of a [DTree] node, as a function of the
    objects and the node's address.  dtree.py is not among the sources;
    what holds below holds whatever the property computes. *)
Variable node_attributes : list DTree → addr → list string.

(** [remaining_attributes], lines 126-130 *)
Definition remaining_attributes (σ : state) : list string :=
  match dtree (self σ) with
  | None => attributes (self σ)
  | Some root =>
      filter (λ a, a ∉ node_attributes (objects σ) root) (attributes (self σ))
  end.

(** Lines 39-69 of [create_tree]: the node a frame emits for its
    (already filtered) [subset]. *)
Definition emit_node (subset : list row) (parent_value : option string)
    : M addr :=
  this ← gets self;
  counts ← lift (attr_counts subset (dependent this));
  if bool_decide (length counts = 1) then
    label ← lift (match counter_keys counts !! 0 with
                  | Some k => Ok k
                  | None => Raise IndexError
                  end);
    alloc (dtree.new label true parent_value None)
  else
    remaining ← gets remaining_attributes;
    if bool_decide (remaining = []) then
      most_common ← lift (py_max Nat.ltb (counter_get counts)
                            (counter_keys counts));
      alloc (dtree.new most_common true parent_value None)
    else
      igains ← lift (mapM (λ attr, g ← information_gain this subset attr;
                                   Ok (attr, g)) remaining);
      max_attr ← lift (py_max Rltb snd igains);
      alloc (dtree.new max_attr.1 false parent_value (Some max_attr.2)).

(** Lines 71-76 of [create_tree]: linking the emitted node. *)
Definition link_node (parent : option addr) (node : addr) : M unit :=
  match parent with
  | None =>
      this ← gets self;
      modify (λ σ, mkState (self σ)
                     (alter (dtree.set_attributes (attributes this)) node
                        (objects σ))) ≫= λ _,
      set_dtree node
  | Some p =>
      modify (λ σ, mkState (self σ) (dtree.add_child p node (objects σ)))
  end.

(** [create_tree], lines 22-84.  [fuel] is the number of nested frames
    the interpreter still allows. *)
Fixpoint create_tree (fuel : nat) (subset : option (list row))
    (parent : option addr) (parent_value : option string) : M unit :=
  match fuel with
  | 0 => lift (Raise RecursionLimit)
  | S fuel' =>
      subset ← match subset with
               | None => gets (λ σ, data (self σ))
               | Some rows =>
                   match parent with
                   | None => lift (Raise AttributeError)
                   | Some p =>
                       pnode ← load p;
                       lift (filter_subset rows (dtree.attribute pnode)
                               parent_value)
                   end
               end;
      node ← emit_node subset parent_value;
      link_node parent node ≫= λ _,
      n ← load node;
      if negb (dtree.leaf n) then
        this ← gets self;
        vals ← lift (values_of this (dtree.attribute n));
        for_each vals (λ value,
          create_tree fuel' (Some subset) (Some node) (Some value))
      else mret ()
  end.

(** [learn], lines 17-20, on the rows read from [self.filename]. *)
Definition learn (fuel : nat) (table : list (list string)) : M unit :=
  parse_csv table ≫= λ _,
  get_distinct_values ≫= λ _,
  create_tree fuel None None None.

End Inducer.

(** [ID3(filename)], lines 13-15: a fresh inducer with [dtree = None]. *)
Definition init : state :=
  mkState (mkID3 "" [] [] [] ∅ None) [].

(** [distinct_values_list], lines 118-124: the values of every domain,
    one domain after the other.  The dict [self.values] is enumerated in
    the order of [map_to_list]. *)
Definition distinct_values_list (this : ID3) : list string :=
  concat ((map_to_list (values this)).*2).

(** ** [entropy] over IEEE doubles *)

(** The arithmetic of lines 153-160 as CPython carries it out, on
    binary64 numbers ([PrimFloat]), with the counting shared with the
    embedding above. *)
Module binary64.

Import Stdlib.Floats.Floats.

(** [float(n)] of a count: the nearest double. *)
Definition of_count (n : nat) : float :=
  SF2Prim (binary_normalize prec emax (Z.of_nat n) 0 false).

(** The natural logarithm of the C library, which [math.log] calls.  It
    is taken as the correctly rounded logarithm, computed here from the
    series of [atanh] on fixed-point numbers with [log_bits] fractional
    bits: for [x = m * 2^e] with [m = (1 + t) * 2^b] and [0 <= t < 1],
    [ln x = (e + b) * ln 2 + 2 * atanh (t / (2 + t))] and
    [ln 2 = 2 * atanh (1/3)]. *)
Definition log_bits : Z := 160.

Fixpoint atanh_series (terms : nat) (odd : Z) (power square acc : Z) : Z :=
  match terms with
  | O => acc
  | S terms' =>
      atanh_series terms' (odd + 2) (power * square / 2 ^ log_bits) square
        (acc + power / odd)
  end.

Definition atanh_fixed (num den : Z) : Z :=
  let z := (num * 2 ^ log_bits / den)%Z in
  atanh_series 64 1 z (z * z / 2 ^ log_bits) 0.

Definition ln2_fixed : Z := (2 * atanh_fixed 1 3)%Z.

Definition ln_fixed (m : positive) (e : Z) : Z :=
  let b := Z.log2 (Zpos m) in
  ((e + b) * ln2_fixed +
   2 * atanh_fixed (Zpos m - 2 ^ b) (Zpos m + 2 ^ b))%Z.

Definition libm_log (x : float) : float :=
  match Prim2SF x with
  | S754_finite false m e =>
      SF2Prim (binary_normalize prec emax (ln_fixed m e) (- log_bits) false)
  | S754_infinity false => infinity
  | S754_zero _ => neg_infinity
  | _ => nan
  end.

(** [x / y] on floats *)
Definition py_div (x y : float) : result float :=
  if PrimFloat.eqb y 0 then Raise ZeroDivisionError
  else Ok (PrimFloat.div x y).

(** [math.log(x, 2)]: the quotient of two logarithms; a math domain
    error for an argument that is not positive. *)
Definition math_log2 (x : float) : result float :=
  if PrimFloat.leb x 0 then Raise ValueError
  else Ok (PrimFloat.div (libm_log x) (libm_log 2)).

(** The loop of [entropy], lines 157-159. *)
Fixpoint entropy_loop (entropy : float) (total : float) (occs : Counter)
    : result float :=
  match occs with
  | [] => Ok entropy
  | (dv, n) :: rest =>
      proportion ← py_div (of_count n) total;
      l ← math_log2 proportion;
      entropy_loop
        (PrimFloat.add entropy (PrimFloat.opp (PrimFloat.mul proportion l)))
        total rest
  end.

(** [entropy], lines 153-160; the integer [0] it starts from is the
    double [0.0] here. *)
Definition entropy (this : ID3) (subset : list row) (attr : string)
    (value : pyval) : result float :=
  occs ← value_occurrences this subset attr value;
  entropy_loop 0 (of_count (counter_total occs)) occs.

End binary64.

(** * Auxiliary definitions for the properties *)

(** ** What the counting methods compute *)

(** The column of [attr] in [subset], and the tally of a list of values. *)
Definition column (subset : list row) (attr : string) : list string :=
  (λ r : row, default "" (r !! attr)) <$> subset.

Definition tally_from (counts : Counter) (l : list string) : Counter :=
  foldl (λ c v, counter_incr v c) counts l.

Definition tally (l : list string) : Counter := tally_from [] l.

(** Every row of [subset] has the key [attr]. *)
Definition rows_have (subset : list row) (attr : string) : Prop :=
  Forall (λ r : row, is_Some (r !! attr)) subset.

(** The test of line 173 on a row. *)
Definition selects (attr : string) (value : pyval) (r : row) : bool :=
  py_eq (default "" (r !! attr)) value || isinstance_bool value.

(** The counter [value_occurrences] builds: the tally of the dependent
    value over the rows line 173 selects. *)
Definition occurrences (this : ID3) (subset : list row) (attr : string)
    (value : pyval) : Counter :=
  tally (column (filter (λ r, selects attr value r) subset) (dependent this)).

(** ** The numbers [entropy] and [information_gain] compute *)

(** The term of one counter entry, [-(p * log2 p)] for [p = n / total]. *)
Definition plogp (n : nat) (total : R) : R :=
  (- (INR n / total * (ln (INR n / total) / ln 2)))%R.

Definition entropy_from (e total : R) (occs : Counter) : R :=
  foldl (λ acc kn, (acc + plogp kn.2 total)%R) e occs.

Definition entropy_value (occs : Counter) : R :=
  entropy_from 0%R (INR (counter_total occs)) occs.

(** The term of one domain value in [information_gain]. *)
Definition gain_term (this : ID3) (subset : list row) (attr : string)
    (occs : Counter) (total : R) (value : string) : R :=
  (- (INR (counter_get occs value) / total *
      entropy_value (occurrences this subset attr (PStr value))))%R.

Definition gain_from (this : ID3) (subset : list row) (attr : string)
    (occs : Counter) (total : R) (gain : R) (vals : list string) : R :=
  foldl (λ g v, (g + gain_term this subset attr occs total v)%R) gain vals.

Definition gain_value (this : ID3) (subset : list row) (attr : string)
    (vals : list string) : R :=
  let occs := tally (column subset attr) in
  gain_from this subset attr occs (INR (counter_total occs))
    (entropy_value (occurrences this subset (dependent this) (PBool true)))
    vals.

(** ** The shape of the tree *)

(** Two inducers that differ at most in [dtree]. *)
Definition same_data (a b : ID3) : Prop :=
  dependent a = dependent b ∧ attributes a = attributes b ∧
  all_attributes a = all_attributes b ∧ data a = data b ∧
  values a = values b.

(** An internal node at [n] has exactly one child per value of the domain
    of its split attribute: the keys of [children] are the domain values,
    and the child under a key is a node allocated after [n] that records
    the key as its [parent_value] and [n] as its parent. *)
Definition node_complete (domains : gmap string (list string))
    (objs : list DTree) (n : addr) : Prop :=
  ∀ node, objs !! n = Some node → dtree.leaf node = false →
    ∃ vals, domains !! dtree.attribute node = Some vals ∧
      dom (dtree.children node) = list_to_set (Some <$> vals) ∧
      ∀ key c, dtree.children node !! key = Some c →
        n < c ∧ ∃ child, objs !! c = Some child ∧
          dtree.parent_value child = key ∧ dtree.parent child = Some n.

(** What a frame of [create_tree] that returns does to the objects: it
    allocates its node at the next address, attaches it to its parent,
    and leaves every node from that address on complete. *)
Definition frame_effect (σ σ' : state) (parent : option addr)
    (pv : option string) : Prop :=
  let k := length (objects σ) in
  same_data (self σ) (self σ') ∧
  k < length (objects σ') ∧
  (∀ i, i < k →
     objects σ' !! i =
     if decide (parent = Some i) then dtree.with_child pv k <$> objects σ !! i
     else objects σ !! i) ∧
  (∃ node, objects σ' !! k = Some node ∧ dtree.parent_value node = pv ∧
           dtree.parent node = parent) ∧
  (∀ i, k ≤ i → node_complete (values (self σ)) (objects σ') i).

(** ** The dataset after loading *)

(** The invariant [get_distinct_values] establishes: [values] holds, for
    exactly the attributes of the header, the set of the values the rows
    have for it, and every row has every attribute. *)
Definition domains_loaded (this : ID3) : Prop :=
  ∀ a, values this !! a =
       if decide (a ∈ all_attributes this)
       then Some (py_set (column (data this) a)) else None.

Definition rows_complete (this : ID3) : Prop :=
  ∀ a, a ∈ all_attributes this → rows_have (data this) a.

(** ** Frames of [create_tree], for running it on a given table *)

(** Lines 32-37: the rows a frame works on. *)
Definition frame_rows (σ : state) (subset : option (list row))
    (parent : option addr) (pv : option string) : result (list row) :=
  match subset with
  | None => Ok (data (self σ))
  | Some rows =>
      match parent with
      | None => Raise AttributeError
      | Some p =>
          match objects σ !! p with
          | Some pnode => filter_subset rows (dtree.attribute pnode) pv
          | None => Raise AttributeError
          end
      end
  end.

(** The state once [link_node], which never raises, has run. *)
Definition linked (parent : option addr) (node : addr) (σ : state) : state :=
  (link_node parent node σ).2.

(** The table once [parse_csv] and [get_distinct_values] have run on a
    fresh inducer. *)
Definition loaded (table : list (list string)) : result () * state :=
  (parse_csv table ≫= λ _, get_distinct_values) init.

(** ** Tables the properties are tried on *)

(** Two rows that the one attribute separates. *)
Definition table_small : list (list string) :=
  [["A"; "Y"]; ["a"; "y"]; ["b"; "n"]].

Definition rows_small : list row :=
  [dict_of_pairs [("A", "a"); ("Y", "y")];
   dict_of_pairs [("A", "b"); ("Y", "n")]].

Definition id3_small (root : option addr) : ID3 :=
  mkID3 "Y" ["A"] ["A"; "Y"] rows_small
    (<["Y" := ["y"; "n"]]> (<["A" := ["a"; "b"]]> ∅)) root.

(** The first row of [table_small]: the value [b] of [A] does not occur. *)
Definition rows_first : list row :=
  [dict_of_pairs [("A", "a"); ("Y", "y")]].

(** The tree [learn] builds for [table_small]: a split on [A] with a leaf
    per value. *)
Definition tree_small : list DTree :=
  [dtree.mkDTree "A" false None
     (Some (gain_value (id3_small None) rows_small "A" ["a"; "b"]))
     (<[Some "b" := 2]> (<[Some "a" := 1]> ∅)) None (Some ["A"]);
   dtree.mkDTree "y" true (Some "a") None ∅ (Some 0) None;
   dtree.mkDTree "n" true (Some "b") None ∅ (Some 0) None].

(** Two rows that agree on both attributes and differ in the label. *)
Definition table_conflict : list (list string) :=
  [["A"; "B"; "Y"]; ["a"; "b"; "y"]; ["a"; "b"; "n"]].

Definition rows_conflict : list row :=
  [dict_of_pairs [("A", "a"); ("B", "b"); ("Y", "y")];
   dict_of_pairs [("A", "a"); ("B", "b"); ("Y", "n")]].

Definition id3_conflict (root : option addr) : ID3 :=
  mkID3 "Y" ["A"; "B"] ["A"; "B"; "Y"] rows_conflict
    (<["Y" := ["y"; "n"]]> (<["B" := ["b"]]> (<["A" := ["a"]]> ∅))) root.

(** The objects when [learn] on [table_conflict] enters its third frame:
    the root splits on [A], its child under [a] on [B]. *)
Definition tree_conflict : list DTree :=
  [dtree.mkDTree "A" false None
     (Some (gain_value (id3_conflict None) rows_conflict "A" ["a"]))
     (<[Some "a" := 1]> ∅) None (Some ["A"; "B"]);
   dtree.mkDTree "B" false (Some "a")
     (Some (gain_value (id3_conflict (Some 0)) rows_conflict "B" ["b"]))
     ∅ (Some 0) None].

(** The independent attributes minus the split attributes on the path
    from the root to the node at [parent], that node included. *)
Definition path_eligible (σ : state) (parent : addr) : list string :=
  filter (λ a, a ∉ dtree.attributes (objects σ) parent) (attributes (self σ)).


(** ** The rows [entropy] counts *)

(** The rows counted according to C3 as it is stated, where only the
    value [True] switches the filter off: every row for [True], the rows
    with [row[attr] == value] for every other value. *)
Definition rows_for_true_only (attr : string) (value : pyval)
    (subset : list row) : list row :=
  match value with
  | PBool true => subset
  | _ => filter (λ r : row, py_eq (default "" (r !! attr)) value) subset
  end.

(** The rows line 173 lets through on rows that have [attr]: any boolean
    switches the filter off. *)
Definition rows_counted (attr : string) (value : pyval)
    (subset : list row) : list row :=
  match value with
  | PBool _ => subset
  | PStr s => filter (λ r : row, r !! attr = Some s) subset
  end.

(** ** Sums of reals *)

Definition Rsum (l : list R) : R := foldr Rplus 0%R l.

(** ** Decidable conditions *)

#[global] Instance rows_have_dec (subset : list row) (attr : string) :
  Decision (rows_have subset attr).
Proof. unfold rows_have. apply _. Defined.

(** ** Sound nodes *)

(** A node is sound for the inducer when, being internal, it tests an
    independent attribute and, being a leaf, it predicts a value that
    some row of the data has for the dependent attribute. *)
Definition node_sound (this : ID3) (node : DTree) : Prop :=
  if dtree.leaf node
  then ∃ r : row, r ∈ data this ∧
                  r !! dependent this = Some (dtree.attribute node)
  else dtree.attribute node ∈ attributes this.

(** ** A table with three attributes that cannot separate the labels *)

(** Two rows that agree on the three attributes and differ in the label. *)
Definition table_three : list (list string) :=
  [["A"; "B"; "C"; "Y"]; ["a"; "b"; "c"; "y"]; ["a"; "b"; "c"; "n"]].

Definition rows_three : list row :=
  [dict_of_pairs [("A", "a"); ("B", "b"); ("C", "c"); ("Y", "y")];
   dict_of_pairs [("A", "a"); ("B", "b"); ("C", "c"); ("Y", "n")]].

Definition id3_three (root : option addr) : ID3 :=
  mkID3 "Y" ["A"; "B"; "C"] ["A"; "B"; "C"; "Y"] rows_three
    (<["Y" := ["y"; "n"]]>
       (<["C" := ["c"]]> (<["B" := ["b"]]> (<["A" := ["a"]]> ∅)))) root.

(** The objects when [learn] on [table_three] enters its fourth frame:
    the root splits on [A], its child under [a] on [B], and the child of
    that node under [b] on [B] again. *)
Definition tree_three : list DTree :=
  [dtree.mkDTree "A" false None
     (Some (gain_value (id3_three None) rows_three "A" ["a"]))
     (<[Some "a" := 1]> ∅) None (Some ["A"; "B"; "C"]);
   dtree.mkDTree "B" false (Some "a")
     (Some (gain_value (id3_three (Some 0)) rows_three "B" ["b"]))
     (<[Some "b" := 2]> ∅) (Some 0) None;
   dtree.mkDTree "B" false (Some "b")
     (Some (gain_value (id3_three (Some 0)) rows_three "B" ["b"]))
     ∅ (Some 1) None].

(** ** A table where a subset lacks a value of a domain *)

(** [A] is the better split at the root; among the rows with [A = q] the
    attribute [B] takes the values [x] and [w], but not the value [z] it
    has elsewhere. *)
Definition table_sparse : list (list string) :=
  [["A"; "B"; "Y"];
   ["p"; "z"; "y"]; ["p"; "w"; "y"]; ["s"; "x"; "n"];
   ["q"; "x"; "y"]; ["q"; "w"; "n"]].

Definition rows_sparse : list row :=
  [dict_of_pairs [("A", "p"); ("B", "z"); ("Y", "y")];
   dict_of_pairs [("A", "p"); ("B", "w"); ("Y", "y")];
   dict_of_pairs [("A", "s"); ("B", "x"); ("Y", "n")];
   dict_of_pairs [("A", "q"); ("B", "x"); ("Y", "y")];
   dict_of_pairs [("A", "q"); ("B", "w"); ("Y", "n")]].

(** The rows of [table_sparse] with [A = q]. *)
Definition rows_sparse_q : list row :=
  [dict_of_pairs [("A", "q"); ("B", "x"); ("Y", "y")];
   dict_of_pairs [("A", "q"); ("B", "w"); ("Y", "n")]].

Definition id3_sparse (root : option addr) : ID3 :=
  mkID3 "Y" ["A"; "B"] ["A"; "B"; "Y"] rows_sparse
    (<["Y" := ["y"; "n"]]>
       (<["B" := ["z"; "w"; "x"]]> (<["A" := ["p"; "s"; "q"]]> ∅))) root.

(** The objects when [learn] on [table_sparse] stops: the root splits on
    [A]; its children under [p] and [s] are leaves; its child under [q]
    splits on [B] and has no child. *)
Definition tree_sparse : list DTree :=
  [dtree.mkDTree "A" false None
     (Some (gain_value (id3_sparse None) rows_sparse "A" ["p"; "s"; "q"]))
     (<[Some "q" := 3]> (<[Some "s" := 2]> (<[Some "p" := 1]> ∅)))
     None (Some ["A"; "B"]);
   dtree.mkDTree "y" true (Some "p") None ∅ (Some 0) None;
   dtree.mkDTree "n" true (Some "s") None ∅ (Some 0) None;
   dtree.mkDTree "B" false (Some "q")
     (Some (gain_value (id3_sparse (Some 0)) rows_sparse_q "B"
              ["z"; "w"; "x"]))
     ∅ (Some 0) None].

(** ** Seven rows with seven labels *)




(** * Properties *)

(** ** The methods on small inputs *)

Example py_set_first_occurrence : py_set ["b"; "a"; "b"] = ["b"; "a"].
Proof. reflexivity. Qed.

Example counter_incr_twice :
  counter_incr "y" (counter_incr "n" (counter_incr "y" [])) =
  [("y", 2); ("n", 1)].
Proof. reflexivity. Qed.

Example attr_counts_conflict :
  attr_counts rows_conflict "Y" = Ok [("y", 1); ("n", 1)].
Proof. vm_compute. reflexivity. Qed.

Example attr_counts_missing_key :
  attr_counts rows_small "B" = Raise (KeyError "B").
Proof. vm_compute. reflexivity. Qed.

Example filter_subset_small :
  filter_subset rows_small "A" (Some "a") = Ok rows_first.
Proof. vm_compute. reflexivity. Qed.

Example value_occurrences_string :
  value_occurrences (id3_small None) rows_small "A" (PStr "b") =
  Ok [("n", 1)].
Proof. vm_compute. reflexivity. Qed.

Example value_occurrences_true :
  value_occurrences (id3_small None) rows_small "A" (PBool true) =
  Ok [("y", 1); ("n", 1)].
Proof. vm_compute. reflexivity. Qed.

Example py_max_first_of_ties :
  py_max Nat.ltb snd [("a", 1); ("b", 2); ("c", 2)] = Ok ("b", 2).
Proof. reflexivity. Qed.

Example used_attributes_path :
  dtree.attributes tree_small 0 = ["A"] ∧ dtree.attributes tree_small 1 = ["A"].
Proof. split; reflexivity. Qed.


(** ** Counters *)

Lemma counter_total_incr key (c : Counter) :
  counter_total (counter_incr key c) = S (counter_total c).
Proof.
  unfold counter_total.
  induction c as [|[k n] c IH]; [done|]. cbn [counter_incr].
  case_decide; rewrite !fmap_cons; cbn [sum_list snd]; [done|].
  rewrite IH. lia.
Qed.

Lemma counter_get_incr key key' (c : Counter) :
  counter_get (counter_incr key c) key' =
  if decide (key' = key) then S (counter_get c key') else counter_get c key'.
Proof.
  induction c as [|[k n] c IH]; simpl.
  - repeat case_decide; done.
  - repeat (case_decide; simpl; subst); try done.
Qed.

Lemma counter_keys_incr key (c : Counter) :
  counter_keys (counter_incr key c) =
  if decide (key ∈ counter_keys c) then counter_keys c
  else counter_keys c ++ [key].
Proof.
  unfold counter_keys.
  induction c as [|[k n] c IH].
  - cbn [counter_incr]. rewrite decide_False by set_solver. done.
  - cbn [counter_incr]. destruct (decide (key = k)) as [->|Hk].
    + rewrite !fmap_cons. cbn [fst]. rewrite decide_True by set_solver. done.
    + rewrite !fmap_cons, IH. cbn [fst].
      destruct (decide (key ∈ c.*1)).
      * rewrite decide_True by set_solver. done.
      * rewrite decide_False by set_solver. done.
Qed.

Lemma counter_positive_incr key (c : Counter) :
  Forall (λ kn, 0 < kn.2) c → Forall (λ kn, 0 < kn.2) (counter_incr key c).
Proof.
  induction 1 as [|[k n] c Hn Hc IH]; simpl.
  - repeat constructor.
  - case_decide; constructor; simpl in *; auto with lia.
Qed.

Lemma counter_get_keys (c : Counter) key :
  key ∉ counter_keys c → counter_get c key = 0.
Proof.
  unfold counter_keys.
  induction c as [|[k n] c IH]; simpl; [done|].
  intros Hk. case_decide; [set_solver|]. apply IH. set_solver.
Qed.

Lemma tally_from_total (l : list string) (c : Counter) :
  counter_total (tally_from c l) = counter_total c + length l.
Proof.
  revert c. induction l as [|v l IH]; intros c; simpl; [lia|].
  unfold tally_from in *. simpl. rewrite IH, counter_total_incr. lia.
Qed.

Lemma tally_from_positive (l : list string) (c : Counter) :
  Forall (λ kn, 0 < kn.2) c → Forall (λ kn, 0 < kn.2) (tally_from c l).
Proof.
  revert c. induction l as [|v l IH]; intros c Hc; simpl; [done|].
  apply IH, counter_positive_incr, Hc.
Qed.

Lemma tally_from_keys (l : list string) (c : Counter) key :
  key ∈ counter_keys (tally_from c l) ↔ key ∈ counter_keys c ∨ key ∈ l.
Proof.
  revert c. induction l as [|v l IH]; intros c; simpl; [set_solver|].
  unfold tally_from in *. simpl. rewrite IH, counter_keys_incr.
  case_decide; set_solver.
Qed.

Lemma tally_from_keys_NoDup (l : list string) (c : Counter) :
  NoDup (counter_keys c) → NoDup (counter_keys (tally_from c l)).
Proof.
  revert c. induction l as [|v l IH]; intros c Hc; simpl; [done|].
  apply IH. rewrite counter_keys_incr. case_decide; [done|].
  apply NoDup_app. split_and!; [done|set_solver|apply NoDup_singleton].
Qed.

Lemma tally_from_get (l : list string) (c : Counter) key :
  counter_get (tally_from c l) key =
  counter_get c key + length (filter (λ v, v = key) l).
Proof.
  revert c. induction l as [|v l IH]; intros c; simpl; [lia|].
  unfold tally_from in *. simpl. rewrite IH, counter_get_incr.
  rewrite filter_cons. repeat case_decide; subst; simpl; try lia; done.
Qed.

(** ** The counting methods return the tally of the rows they select *)

Lemma attr_counts_loop_ok (subset : list row) attr (c : Counter) :
  rows_have subset attr →
  attr_counts_loop c subset attr = Ok (tally_from c (column subset attr)).
Proof.
  revert c. induction subset as [|r rest IH]; intros c Hr; simpl; [done|].
  apply Forall_cons in Hr as [[v Hv] Hrest].
  unfold getitem. rewrite Hv. simpl. by rewrite IH.
Qed.

Lemma attr_counts_ok (subset : list row) attr :
  rows_have subset attr →
  attr_counts subset attr = Ok (tally (column subset attr)).
Proof. apply attr_counts_loop_ok. Qed.

Lemma attr_counts_loop_rows (subset : list row) attr (c c' : Counter) :
  attr_counts_loop c subset attr = Ok c' → rows_have subset attr.
Proof.
  revert c. induction subset as [|r rest IH]; intros c Hc; [constructor|].
  simpl in Hc. unfold getitem in Hc.
  destruct (r !! attr) as [v|] eqn:Hv; [|done]. simpl in Hc.
  constructor; [by eexists|by eapply IH].
Qed.

Lemma value_occurrences_loop_ok this (subset : list row) attr value (c : Counter) :
  rows_have subset attr →
  rows_have subset (dependent this) →
  value_occurrences_loop this c subset attr value =
  Ok (tally_from c (column (filter (λ r, selects attr value r) subset)
                      (dependent this))).
Proof.
  revert c. induction subset as [|r rest IH]; intros c Ha Hd; simpl; [done|].
  apply Forall_cons in Ha as [[v Hv] Ha].
  apply Forall_cons in Hd as [[d Hd'] Hd].
  assert (selects attr value r = py_eq v value || isinstance_bool value)
    as Hsel by (unfold selects; by rewrite Hv).
  unfold getitem. rewrite Hv. simpl.
  destruct (py_eq v value || isinstance_bool value); simpl.
  - rewrite filter_cons_True by (rewrite Hsel; exact I).
    rewrite Hd'. simpl. rewrite IH by done. simpl. by rewrite Hd'.
  - rewrite filter_cons_False by (rewrite Hsel; intros []). by rewrite IH.
Qed.

Lemma value_occurrences_ok this (subset : list row) attr value :
  rows_have subset attr →
  rows_have subset (dependent this) →
  value_occurrences this subset attr value =
  Ok (tally (column (filter (λ r, selects attr value r) subset)
               (dependent this))).
Proof. apply value_occurrences_loop_ok. Qed.

(** ** Entropy and information gain never raise on well-formed rows *)

Lemma py_div_ok (x y : R) : y ≠ 0%R → py_div x y = Ok (x / y)%R.
Proof. intros Hy. unfold py_div. destruct (Req_dec_T y 0); [done|done]. Qed.

Lemma py_div_zero (x : R) : py_div x 0 = Raise ZeroDivisionError.
Proof. unfold py_div. destruct (Req_dec_T 0 0); [done|done]. Qed.

Lemma math_log2_ok (x : R) : (0 < x)%R → math_log2 x = Ok (ln x / ln 2)%R.
Proof.
  intros Hx. unfold math_log2. destruct (Rle_dec x 0); [lra|done].
Qed.

Lemma INR_pos_ne (n : nat) : 0 < n → INR n ≠ 0%R.
Proof. intros Hn. apply not_0_INR. lia. Qed.

Lemma proportion_pos (n T : nat) : 0 < n → 0 < T → (0 < INR n / INR T)%R.
Proof.
  intros Hn HT. apply Rdiv_lt_0_compat; apply lt_0_INR; lia.
Qed.

Lemma entropy_loop_ok (occs : Counter) (T : nat) (e : R) :
  0 < T →
  Forall (λ kn, 0 < kn.2) occs →
  entropy_loop e (INR T) occs = Ok (entropy_from e (INR T) occs).
Proof.
  intros HT Hpos. revert e.
  induction Hpos as [|[dv n] occs Hn _ IH]; intros e; simpl; [done|].
  rewrite py_div_ok by (by apply INR_pos_ne). simpl.
  rewrite math_log2_ok by (by apply proportion_pos). simpl.
  rewrite IH. done.
Qed.

Lemma counter_total_pos (occs : Counter) :
  occs ≠ [] → Forall (λ kn, 0 < kn.2) occs → 0 < counter_total occs.
Proof.
  intros Hne Hpos. destruct Hpos as [|[k n] occs Hn _]; [done|].
  unfold counter_total. rewrite fmap_cons. simpl in *. lia.
Qed.

Lemma tally_positive (l : list string) : Forall (λ kn, 0 < kn.2) (tally l).
Proof. apply tally_from_positive. constructor. Qed.

Lemma tally_total (l : list string) : counter_total (tally l) = length l.
Proof. unfold tally. rewrite tally_from_total. done. Qed.

Lemma entropy_counter_ok (occs : Counter) :
  Forall (λ kn, 0 < kn.2) occs →
  entropy_loop 0 (INR (counter_total occs)) occs = Ok (entropy_value occs).
Proof.
  intros Hpos. destruct (decide (occs = [])) as [->|Hne]; [done|].
  apply entropy_loop_ok; [by apply counter_total_pos|done].
Qed.

Lemma entropy_ok this (subset : list row) attr value :
  rows_have subset attr →
  rows_have subset (dependent this) →
  entropy this subset attr value =
  Ok (entropy_value (occurrences this subset attr value)).
Proof.
  intros Ha Hd. unfold entropy.
  rewrite value_occurrences_ok by done. simpl.
  apply entropy_counter_ok, tally_positive.
Qed.

Lemma information_gain_loop_ok this (subset : list row) attr occs (T : nat)
    (gain : R) (vals : list string) :
  0 < T →
  rows_have subset attr →
  rows_have subset (dependent this) →
  information_gain_loop this subset attr occs (INR T) gain vals =
  Ok (gain_from this subset attr occs (INR T) gain vals).
Proof.
  intros HT Ha Hd. revert gain.
  induction vals as [|v vals IH]; intros gain; simpl; [done|].
  rewrite py_div_ok by (by apply INR_pos_ne). simpl.
  rewrite entropy_ok by done. simpl. rewrite IH. done.
Qed.

Lemma information_gain_ok this (subset : list row) attr vals :
  subset ≠ [] →
  rows_have subset attr →
  rows_have subset (dependent this) →
  values this !! attr = Some vals →
  information_gain this subset attr = Ok (gain_value this subset attr vals).
Proof.
  intros Hne Ha Hd Hvals. unfold information_gain, get_base_entropy.
  rewrite entropy_ok by done. simpl.
  rewrite attr_counts_ok by done. simpl.
  unfold values_of. rewrite Hvals. simpl.
  apply information_gain_loop_ok; [|done..].
  rewrite tally_total. unfold column. rewrite length_fmap.
  destruct subset; [done|simpl; lia].
Qed.

(** On an empty subset the gain is [0] when the attribute's domain is
    empty and the first division raises otherwise. *)
Lemma information_gain_empty this attr vals :
  values this !! attr = Some vals →
  information_gain this [] attr =
  match vals with [] => Ok 0%R | _ :: _ => Raise ZeroDivisionError end.
Proof.
  intros Hvals. unfold information_gain, get_base_entropy, entropy. simpl.
  unfold values_of. rewrite Hvals. simpl.
  destruct vals as [|v vals]; simpl; [done|].
  unfold counter_total. simpl. by rewrite py_div_zero.
Qed.

(** ** [max] and [mapM] *)

Lemma Rltb_true (x y : R) : Rltb x y = true ↔ (x < y)%R.
Proof. unfold Rltb. destruct (Rlt_dec x y); split; done. Qed.

Lemma Rltb_false (x y : R) : Rltb x y = false ↔ (y <= x)%R.
Proof. unfold Rltb. destruct (Rlt_dec x y); split; (done || lra). Qed.

(** [max] returns the first element of maximal key. *)
Lemma max_from_first {A : Type} (key : A → R) (l : list A) (best : A) :
  ∃ before after,
    best :: l = before ++ max_from Rltb key best l :: after ∧
    Forall (λ x, (key x < key (max_from Rltb key best l))%R) before ∧
    Forall (λ x, (key x <= key (max_from Rltb key best l))%R) after.
Proof.
  revert best. induction l as [|x l IH]; intros best; simpl.
  - exists [], []. by repeat constructor.
  - destruct (Rltb (key best) (key x)) eqn:Hlt.
    + apply Rltb_true in Hlt.
      destruct (IH x) as (before & after & Heq & Hb & Ha).
      set (m := max_from Rltb key x l) in *.
      exists (best :: before), after. split_and!; [by rewrite Heq| |done].
      constructor; [|done].
      destruct before as [|y before]; simpl in Heq.
      * injection Heq as Hx _. by rewrite <- Hx.
      * injection Heq as Hx _. subst y.
        apply Forall_cons in Hb as [Hy _]. lra.
    + apply Rltb_false in Hlt.
      destruct (IH best) as (before & after & Heq & Hb & Ha).
      set (m := max_from Rltb key best l) in *.
      destruct before as [|y before]; simpl in Heq.
      * injection Heq as Hx Hl.
        exists [], (x :: l). split_and!; [by rewrite <- Hx|done|].
        constructor; [by rewrite <- Hx|]. by rewrite Hl.
      * injection Heq as Hx Hl. subst y.
        exists (best :: x :: before), after.
        split_and!; [by rewrite Hl| |done].
        apply Forall_cons in Hb as [Hy Hb].
        repeat constructor; [done|lra|done].
Qed.

Lemma mapM_result_ok {A B : Type} (f : A → result B) (g : A → B) (l : list A) :
  Forall (λ x, f x = Ok (g x)) l → mapM f l = Ok (g <$> l).
Proof.
  induction 1 as [|x l Hx _ IH]; simpl; [done|].
  rewrite Hx. simpl. rewrite IH. done.
Qed.

(** ** The state and error monad *)

Lemma bind_gets {A B : Type} (f : state → A) (k : A → M B) σ :
  (gets f ≫= k) σ = k (f σ) σ.
Proof. done. Qed.

Lemma bind_lift_ok {A B : Type} (a : A) (k : A → M B) σ :
  (lift (Ok a) ≫= k) σ = k a σ.
Proof. done. Qed.

Lemma bind_lift_raise {A B : Type} (e : exn) (k : A → M B) σ :
  (lift (Raise e) ≫= k) σ = (Raise e, σ).
Proof. done. Qed.

Lemma bind_modify {B : Type} (f : state → state) (k : unit → M B) σ :
  (modify f ≫= k) σ = k () (f σ).
Proof. done. Qed.

Lemma bind_alloc {B : Type} (node : DTree) (k : addr → M B) σ :
  (alloc node ≫= k) σ =
  k (length (objects σ)) (mkState (self σ) (objects σ ++ [node])).
Proof. done. Qed.

Lemma bind_inv {A B : Type} (m : M A) (k : A → M B) σ r σ' :
  (m ≫= k) σ = (r, σ') →
  (∃ a σ1, m σ = (Ok a, σ1) ∧ k a σ1 = (r, σ')) ∨
  (∃ e, m σ = (Raise e, σ') ∧ r = Raise e).
Proof.
  unfold mbind, M_bind. destruct (m σ) as [[a|e] σ1]; intros H.
  - left. by exists a, σ1.
  - right. exists e. by simplify_eq.
Qed.

Lemma bind_ok_inv {A B : Type} (m : M A) (k : A → M B) σ b σ' :
  (m ≫= k) σ = (Ok b, σ') →
  ∃ a σ1, m σ = (Ok a, σ1) ∧ k a σ1 = (Ok b, σ').
Proof.
  intros H. apply bind_inv in H as [H|(e & _ & ?)]; [done|done].
Qed.

Lemma lift_inv {A : Type} (r : result A) σ r' σ' :
  lift r σ = (r', σ') → r' = r ∧ σ' = σ.
Proof. unfold lift. by intros [= <- <-]. Qed.

Lemma create_tree_unfold na fuel subset parent pv :
  create_tree na (S fuel) subset parent pv =
  (subset ← match subset with
            | None => gets (λ σ, data (self σ))
            | Some rows =>
                match parent with
                | None => lift (Raise AttributeError)
                | Some p =>
                    pnode ← load p;
                    lift (filter_subset rows (dtree.attribute pnode) pv)
                end
            end;
   node ← emit_node na subset pv;
   link_node parent node ≫= λ _,
   n ← load node;
   if negb (dtree.leaf n) then
     this ← gets self;
     vals ← lift (values_of this (dtree.attribute n));
     for_each vals (λ value,
       create_tree na fuel (Some subset) (Some node) (Some value))
   else mret ()).
Proof. done. Qed.

(** The subset a frame works on leaves the state as it is. *)
Lemma frame_subset_inv (subset : option (list row)) (parent : option addr) pv σ r σ' :
  match subset with
  | None => gets (λ σ, data (self σ))
  | Some rows =>
      match parent with
      | None => lift (Raise AttributeError)
      | Some p =>
          pnode ← load p;
          lift (filter_subset rows (dtree.attribute pnode) pv)
      end
  end σ = (r, σ') → σ' = σ.
Proof.
  destruct subset as [rows|]; [|by intros [= _ <-]].
  destruct parent as [p|]; [|by intros [= _ <-]].
  unfold mbind, M_bind, load. destruct (objects σ !! p); [|by intros [= _ <-]].
  by intros [= _ <-].
Qed.

Lemma max_from_elem {A K : Type} (ltb : K → K → bool) (key : A → K)
    (l : list A) (best : A) :
  max_from ltb key best l ∈ best :: l.
Proof.
  revert best. induction l as [|x l IH]; intros best; simpl; [set_solver|].
  destruct (ltb (key best) (key x)).
  - specialize (IH x). set_solver.
  - specialize (IH best). set_solver.
Qed.

Lemma py_max_elem {A K : Type} (ltb : K → K → bool) (key : A → K)
    (l : list A) (x : A) :
  py_max ltb key l = Ok x → x ∈ l.
Proof.
  destruct l as [|y l]; simpl; [done|]. intros [= <-]. apply max_from_elem.
Qed.

Lemma mapM_pairs_fst {A B : Type} (f : A → result B) (l : list A)
    (pairs : list (A * B)) :
  mapM (λ x, y ← f x; Ok (x, y)) l = Ok pairs → pairs.*1 = l.
Proof.
  revert pairs. induction l as [|x l IH]; intros pairs; simpl.
  - by intros [= <-].
  - destruct (f x) as [y|]; simpl; [|done].
    destruct (mapM _ l) as [rest|]; simpl; [|done].
    intros [= <-]. simpl. f_equal. by apply IH.
Qed.

(** What [emit_node] does to the state: one allocation, or nothing. *)
Lemma emit_node_inv na (subset : list row) pv σ r σ' :
  emit_node na subset pv σ = (r, σ') →
  (∃ a lf g, r = Ok (length (objects σ)) ∧
     σ' = mkState (self σ) (objects σ ++ [dtree.new a lf pv g]) ∧
     (lf = false → a ∈ remaining_attributes na σ)) ∨
  (∃ e, r = Raise e ∧ σ' = σ).
Proof.
  unfold emit_node. rewrite bind_gets.
  destruct (attr_counts subset (dependent (self σ))) as [counts|e];
    [rewrite bind_lift_ok|rewrite bind_lift_raise; intros [= <- <-]; eauto].
  case_bool_decide.
  - destruct (counter_keys counts !! 0) as [label|];
      [rewrite bind_lift_ok|rewrite bind_lift_raise; intros [= <- <-]; eauto].
    intros [= <- <-]. left. by exists label, true, None.
  - rewrite bind_gets. case_bool_decide.
    + destruct (py_max Nat.ltb (counter_get counts) (counter_keys counts))
        as [label|]; 
        [rewrite bind_lift_ok|rewrite bind_lift_raise; intros [= <- <-]; eauto].
      intros [= <- <-]. left. by exists label, true, None.
    + destruct (mapM _ _) as [igains|] eqn:Hmap;
        [rewrite bind_lift_ok|rewrite bind_lift_raise; intros [= <- <-]; eauto].
      destruct (py_max Rltb snd igains) as [[a g]|] eqn:Hmax;
        [rewrite bind_lift_ok|rewrite bind_lift_raise; intros [= <- <-]; eauto].
      intros [= <- <-]. left. exists a, false, (Some g). split_and!; [done..|].
      intros _. apply mapM_pairs_fst in Hmap. rewrite <- Hmap.
      apply py_max_elem in Hmax.
      apply (list_elem_of_fmap_2 fst) in Hmax. done.
Qed.
Lemma for_each_inv {A : Type} (body : A → M unit)
    (I : list A → state → Prop) (l : list A) σ σ' :
  I [] σ →
  (∀ done x σ1 σ2, I done σ1 → body x σ1 = (Ok (), σ2) → I (done ++ [x]) σ2) →
  for_each l body σ = (Ok (), σ') → I l σ'.
Proof.
  intros Hinit Hstep.
  assert (∀ done σ0, I done σ0 → for_each l body σ0 = (Ok (), σ') →
                     I (done ++ l) σ') as Hgen.
  { induction l as [|x l IH]; intros done σ0 HI; simpl.
    - intros [= <-]. by rewrite app_nil_r.
    - intros Hrun. apply bind_ok_inv in Hrun as ([] & σ1 & Hx & Hrest).
      rewrite (cons_middle x), app_assoc. eapply IH; [|exact Hrest].
      by eapply Hstep. }
  intros Hrun. by apply (Hgen [] σ).
Qed.

Lemma same_data_refl a : same_data a a.
Proof. by repeat split. Qed.

Lemma same_data_trans a b c : same_data a b → same_data b c → same_data a c.
Proof.
  intros (?&?&?&?&?) (?&?&?&?&?). repeat split; congruence.
Qed.

(** Linking never raises; it changes the parent and the new node only. *)
Lemma link_node_effect (parent : option addr) (nd : DTree) σ :
  (∀ p, parent = Some p → p < length (objects σ)) →
  ∃ σ2 n2,
    link_node parent (length (objects σ))
      (mkState (self σ) (objects σ ++ [nd])) = (Ok (), σ2) ∧
    same_data (self σ) (self σ2) ∧
    dtree (self σ2) = match parent with
                      | None => Some (length (objects σ))
                      | Some _ => dtree (self σ)
                      end ∧
    length (objects σ2) = S (length (objects σ)) ∧
    (∀ i, i < length (objects σ) →
       objects σ2 !! i =
       if decide (parent = Some i)
       then dtree.with_child (dtree.parent_value nd) (length (objects σ))
              <$> objects σ !! i
       else objects σ !! i) ∧
    objects σ2 !! length (objects σ) = Some n2 ∧
    dtree.attribute n2 = dtree.attribute nd ∧
    dtree.leaf n2 = dtree.leaf nd ∧
    dtree.parent_value n2 = dtree.parent_value nd ∧
    dtree.information_gain n2 = dtree.information_gain nd ∧
    dtree.children n2 = dtree.children nd ∧
    dtree.parent n2 = match parent with
                      | None => dtree.parent nd
                      | Some p => Some p
                      end.
Proof.
  intros Hp. set (k := length (objects σ)).
  assert ((objects σ ++ [nd]) !! k = Some nd) as Hk.
  { rewrite lookup_app_r by done. by rewrite Nat.sub_diag. }
  destruct parent as [p|]; simpl.
  - specialize (Hp p eq_refl).
    eexists _, (dtree.with_parent p nd). split; [reflexivity|]. simpl.
    unfold dtree.add_child. rewrite Hk.
    split_and!; try done.
    + rewrite !length_alter, length_app. simpl. lia.
    + intros i Hi. destruct (decide (p = i)) as [->|Hne].
      * rewrite decide_True by done. rewrite list_lookup_alter_eq.
        rewrite list_lookup_alter_ne by (fold k; lia).
        by rewrite lookup_app_l.
      * rewrite decide_False by congruence.
        rewrite list_lookup_alter_ne by done.
        rewrite list_lookup_alter_ne by (fold k; lia).
        by rewrite lookup_app_l.
    + rewrite list_lookup_alter_ne by (fold k; lia).
      rewrite list_lookup_alter_eq, Hk. done.
  - eexists _, (dtree.set_attributes (attributes (self σ)) nd).
    split; [reflexivity|]. simpl. split_and!; try done.
    + rewrite length_alter, length_app. simpl. lia.
    + intros i Hi. rewrite list_lookup_alter_ne by (fold k; lia).
      by rewrite lookup_app_l.
    + by rewrite list_lookup_alter_eq, Hk.
Qed.
Lemma load_inv (n : addr) σ r σ' :
  load n σ = (r, σ') →
  σ' = σ ∧ match objects σ !! n with
           | Some node => r = Ok node
           | None => r = Raise AttributeError
           end.
Proof. unfold load. destruct (objects σ !! n); by intros [= <- <-]. Qed.

Lemma create_tree_frame na (fuel : nat) :
  ∀ subset parent pv σ σ',
    (∀ p, parent = Some p → p < length (objects σ)) →
    create_tree na fuel subset parent pv σ = (Ok (), σ') →
    frame_effect σ σ' parent pv.
Proof.
  induction fuel as [|fuel IH]; intros subset parent pv σ σ' Hp Hrun; [done|].
  rewrite create_tree_unfold in Hrun.
  apply bind_ok_inv in Hrun as (rows & σ0 & Hsub & Hrun).
  apply frame_subset_inv in Hsub as ->.
  apply bind_ok_inv in Hrun as (k' & σ1 & Hemit & Hrun).
  apply emit_node_inv in Hemit as [(a & lf & g & [= ->] & -> & _)|(e & ? & _)];
    [|done].
  set (k := length (objects σ)) in *.
  destruct (link_node_effect parent (dtree.new a lf pv g) σ Hp)
    as (σ2 & n2 & Hlink & Hsame & _ & Hlen2 & Hlow2 & Hk2 & Hattr & Hleaf &
        Hpv & _ & Hch & Hpar).
  fold k in Hlink, Hlen2, Hlow2, Hk2. simpl in Hattr, Hleaf, Hpv, Hch, Hpar.
  assert (dtree.parent n2 = parent) as Hpar' by (by destruct parent).
  clear Hpar.
  apply bind_ok_inv in Hrun as ([] & σ2' & Hlink' & Hrun).
  rewrite Hlink in Hlink'. injection Hlink' as <-.
  apply bind_ok_inv in Hrun as (n & σ2' & Hload & Hrun).
  apply load_inv in Hload as [-> Hload]. rewrite Hk2 in Hload.
  injection Hload as ->. rewrite Hleaf in Hrun.
  destruct lf; simpl in Hrun.
  - (* a leaf *)
    injection Hrun as <-. unfold frame_effect. fold k. split_and!.
    + done.
    + lia.
    + intros i Hi. by rewrite Hlow2.
    + by exists n2.
    + intros i Hi node Hnode Hint.
      assert (i = k) as -> by (apply lookup_lt_Some in Hnode; lia).
      congruence.
  - (* an internal node *)
    rewrite bind_gets in Hrun.
    apply bind_ok_inv in Hrun as (vals & σ2' & Hvals & Hrun).
    apply lift_inv in Hvals as [Hvals ->].
    unfold values_of in Hvals. rewrite Hattr in Hvals.
    destruct (values (self σ2) !! a) as [vals'|] eqn:Hdom; [|done].
    injection Hvals as <-.
    assert (values (self σ) !! a = Some vals) as Hdom'.
    { destruct Hsame as (_ & _ & _ & _ & ->). done. }
    set (J := λ (done : list string) (σi : state),
      same_data (self σ) (self σi) ∧
      S k ≤ length (objects σi) ∧
      (∀ i, i < k → objects σi !! i = objects σ2 !! i) ∧
      (∃ nk, objects σi !! k = Some nk ∧ dtree.attribute nk = a ∧
             dtree.leaf nk = false ∧ dtree.parent_value nk = pv ∧
             dtree.parent nk = parent ∧
             dom (dtree.children nk) = list_to_set (Some <$> done) ∧
             ∀ key c, dtree.children nk !! key = Some c →
               k < c ∧ ∃ child, objects σi !! c = Some child ∧
                 dtree.parent_value child = key ∧
                 dtree.parent child = Some k) ∧
      (∀ i, k < i → node_complete (values (self σ)) (objects σi) i)).
    assert (J vals σ') as (Hs & Hl & Hlow & (nk & Hnk & Hka & Hkl & Hkpv &
                           Hkpar & Hkdom & Hkch) & Hhigh).
    { eapply (for_each_inv _ J); [| |exact Hrun].
      - (* before the loop *)
        unfold J. split_and!; [done|lia|done| |].
        + exists n2. split_and!; try done.
          * rewrite Hch. set_solver.
          * intros key c. rewrite Hch. by rewrite lookup_empty.
        + intros i Hi node Hnode. apply lookup_lt_Some in Hnode. lia.
      - (* one iteration *)
        clear Hrun. intros done v σi σj
          (Hs & Hl & Hlow & (nk & Hnk & Hka & Hkl & Hkpv & Hkpar & Hkdom &
           Hkch) & Hhigh) Hbody.
        apply IH in Hbody; [|intros p [= <-]; lia].
        destruct Hbody as (Es & El & Elow & (nc & Hnc & Hcpv & Hcpar) & Ehigh).
        set (kc := length (objects σi)) in *.
        assert (∀ i, i < kc → i ≠ k → objects σj !! i = objects σi !! i)
          as Esame.
        { intros i Hi Hik. rewrite Elow by done.
          by rewrite decide_False by congruence. }
        unfold J. split_and!.
        + by eapply same_data_trans.
        + lia.
        + intros i Hi. rewrite Esame by lia. by apply Hlow.
        + exists (dtree.with_child (Some v) kc nk). split_and!; try done.
          * rewrite Elow by lia. rewrite decide_True by done.
            by rewrite Hnk.
          * simpl. rewrite dom_insert_L, Hkdom, fmap_app, list_to_set_app_L.
            simpl. set_solver.
          * intros key c. simpl. intros Hc.
            destruct (decide (key = Some v)) as [->|Hne].
            -- rewrite lookup_insert_eq in Hc. injection Hc as <-.
               split; [lia|]. by exists nc.
            -- rewrite lookup_insert_ne in Hc by done.
               destruct (Hkch key c Hc) as (Hlt & child & Hchild & ? & ?).
               split; [done|]. exists child. split_and!; try done.
               rewrite Esame; [done| |lia].
               by apply lookup_lt_Some in Hchild.
        + intros i Hi. destruct (decide (kc ≤ i)) as [Hge|Hlt].
          * destruct Hs as (_ & _ & _ & _ & ->). by apply Ehigh.
          * intros node Hnode Hint.
            rewrite Esame in Hnode by lia.
            destruct (Hhigh i Hi node Hnode Hint)
              as (vs & Hvs & Hd & Hcs).
            exists vs. split_and!; try done.
            intros key c Hc.
            destruct (Hcs key c Hc) as (Hlt' & child & Hchild & ? & ?).
            split; [done|]. exists child. split_and!; try done.
            rewrite Esame; [done| |lia].
            by apply lookup_lt_Some in Hchild. }
    unfold frame_effect. fold k. split_and!.
    + done.
    + lia.
    + intros i Hi. rewrite Hlow by done. by rewrite Hlow2.
    + by exists nk.
    + intros i Hi. destruct (decide (i = k)) as [->|Hne].
      * intros node Hnode _. rewrite Hnk in Hnode. injection Hnode as <-.
        exists vals. rewrite Hka. split_and!; done.
      * apply Hhigh. lia.
Qed.

(** ** Loading *)

Lemma getitem_Some (r : row) (a v : string) :
  r !! a = Some v → getitem r a = Ok v.
Proof. intros H. unfold getitem. by rewrite H. Qed.

Lemma getitem_None (r : row) (a : string) :
  r !! a = None → getitem r a = Raise (KeyError a).
Proof. intros H. unfold getitem. by rewrite H. Qed.

Lemma mapM_getitem (rows : list row) (a : string) (col : list string) :
  mapM (λ r, getitem r a) rows = Ok col →
  rows_have rows a ∧ col = column rows a.
Proof.
  revert col. induction rows as [|r rows IH]; intros col; simpl.
  - intros [= <-]. split.
    + constructor.
    + reflexivity.
  - destruct (r !! a) as [v|] eqn:Hv;
      [rewrite (getitem_Some _ _ _ Hv)|by rewrite (getitem_None _ _ Hv)].
    simpl. destruct (mapM _ rows) as [rest|]; simpl; [|done].
    intros [= <-]. destruct (IH rest eq_refl) as [Hr ->].
    split.
    + constructor; [by eexists|done].
    + done.
Qed.

Lemma distinct_values_loop_spec (rows : list row) (attrs : list string)
    (m m' : gmap string (list string)) :
  distinct_values_loop rows m attrs = Ok m' →
  (∀ a, a ∈ attrs → rows_have rows a) ∧
  (∀ a, m' !! a = if decide (a ∈ attrs) then Some (py_set (column rows a))
                  else m !! a).
Proof.
  revert m. induction attrs as [|b attrs IH]; intros m;
    cbn [distinct_values_loop].
  - intros [= <-]. split; [set_solver|]. intros a.
    by rewrite decide_False by set_solver.
  - destruct (mapM _ rows) as [col|] eqn:Hcol; simpl; [|done].
    apply mapM_getitem in Hcol as [Hb ->].
    intros Hloop. apply IH in Hloop as [Hrows Hlook]. split.
    + intros a [->|Ha]%elem_of_cons; auto.
    + intros a. rewrite Hlook. destruct (decide (a ∈ attrs)).
      * by rewrite decide_True by set_solver.
      * destruct (decide (a = b)) as [->|Hne].
        -- rewrite decide_True by set_solver. by rewrite lookup_insert_eq.
        -- rewrite decide_False by set_solver. by rewrite lookup_insert_ne.
Qed.

Lemma py_set_NoDup (l : list string) : NoDup (py_set l).
Proof.
  unfold py_set. rewrite reverse_Permutation. apply NoDup_remove_dups.
Qed.

Lemma elem_of_py_set (l : list string) x : x ∈ py_set l ↔ x ∈ l.
Proof.
  unfold py_set. by rewrite elem_of_reverse, elem_of_remove_dups, elem_of_reverse.
Qed.

Lemma distinct_values_loop_raise (rows : list row) (attrs : list string)
    (m : gmap string (list string)) e :
  distinct_values_loop rows m attrs = Raise e → ∃ key, e = KeyError key.
Proof.
  revert m. induction attrs as [|b attrs IH]; intros m; simpl; [done|].
  destruct (mapM _ _) as [col|e'] eqn:Hcol; simpl; [apply IH|].
  intros [= <-]. clear -Hcol. revert Hcol.
  induction rows as [|r l IHl]; simpl; [done|].
  destruct (r !! b) as [v|] eqn:Hv;
    [rewrite (getitem_Some _ _ _ Hv)|
     rewrite (getitem_None _ _ Hv); intros [= <-]; by eexists].
  simpl. destruct (mapM _ l); simpl; [done|]. intros [= <-]. by apply IHl.
Qed.

(** What [learn] has done when it enters [create_tree]. *)
Lemma learn_inv na (fuel : nat) (table : list (list string)) σ r σ' :
  learn na fuel table σ = (r, σ') →
  (∃ e, r = Raise e ∧ e ≠ RecursionLimit ∧ objects σ' = objects σ ∧
        dtree (self σ') = dtree (self σ)) ∨
  (∃ σa header rows dep,
     table = header :: rows ∧ last header = Some dep ∧
     dependent (self σa) = dep ∧
     attributes (self σa) = filter (λ a, a ≠ dep) header ∧
     all_attributes (self σa) = header ∧
     data (self σa) = (λ r, dict_of_pairs (zip header r)) <$> rows ∧
     dtree (self σa) = dtree (self σ) ∧
     objects σa = objects σ ∧
     domains_loaded (self σa) ∧ rows_complete (self σa) ∧
     create_tree na fuel None None None σa = (r, σ')).
Proof.
  unfold learn. intros Hrun.
  apply bind_inv in Hrun as [([] & σ1 & Hparse & Hrun)|(e & Hparse & ->)].
  - unfold parse_csv in Hparse. destruct table as [|header rows]; [done|].
    destruct (last header) as [dep|] eqn:Hlast; [|done].
    injection Hparse as <-.
    apply bind_inv in Hrun as [([] & σ2 & Hdist & Hrun)|(e & Hdist & ->)].
    + unfold get_distinct_values in Hdist. simpl in Hdist.
      destruct (distinct_values_loop _ _ _) as [vals|] eqn:Hloop; [|done].
      injection Hdist as <-.
      apply distinct_values_loop_spec in Hloop as [Hrows Hlook].
      right.
      exists (mkState
                (mkID3 dep (filter (λ a, a ≠ dep) header) header
                   ((λ r, dict_of_pairs (zip header r)) <$> rows) vals
                   (dtree (self σ)))
                (objects σ)), header, rows, dep.
      split_and!; done.
    + left. unfold get_distinct_values in Hdist. simpl in Hdist.
      destruct (distinct_values_loop _ _ _) as [vals|e'] eqn:Hloop; [done|].
      injection Hdist as -> <-. exists e. split_and!; try done.
      apply distinct_values_loop_raise in Hloop as [key ->]. done.
  - left. unfold parse_csv in Hparse. destruct table as [|header rows].
    + injection Hparse as <- <-. by exists StopIteration.
    + destruct (last header); [done|]. injection Hparse as <- <-.
      by exists IndexError.
Qed.

(** ** Running a frame *)

Lemma learn_loaded na fuel table σ :
  loaded table = (Ok (), σ) →
  learn na fuel table init = create_tree na fuel None None None σ.
Proof.
  unfold loaded, learn. unfold mbind, M_bind.
  destruct (parse_csv table init) as [[[]|e] σ1]; [|done].
  destruct (get_distinct_values σ1) as [[[]|e] σ2]; [|done].
  by intros [= <-].
Qed.

Lemma link_node_linked parent node σ :
  link_node parent node σ = (Ok (), linked parent node σ).
Proof. unfold linked. by destruct parent. Qed.

Lemma frame_rows_run σ (subset : option (list row)) parent pv :
  match subset with
  | None => gets (λ σ, data (self σ))
  | Some rows =>
      match parent with
      | None => lift (Raise AttributeError)
      | Some p =>
          pnode ← load p;
          lift (filter_subset rows (dtree.attribute pnode) pv)
      end
  end σ = (frame_rows σ subset parent pv, σ).
Proof.
  destruct subset as [rows|]; [|done]. destruct parent as [p|]; [|done].
  unfold mbind, M_bind, load, frame_rows. by destruct (objects σ !! p).
Qed.

Lemma emit_pure_leaf na (rows : list row) pv σ label n :
  attr_counts rows (dependent (self σ)) = Ok [(label, n)] →
  emit_node na rows pv σ =
  (Ok (length (objects σ)),
   mkState (self σ) (objects σ ++ [dtree.new label true pv None])).
Proof. intros Hc. unfold emit_node. rewrite bind_gets, Hc. done. Qed.

Lemma emit_common_leaf na (rows : list row) pv σ counts label :
  attr_counts rows (dependent (self σ)) = Ok counts →
  length counts ≠ 1 →
  remaining_attributes na σ = [] →
  py_max Nat.ltb (counter_get counts) (counter_keys counts) = Ok label →
  emit_node na rows pv σ =
  (Ok (length (objects σ)),
   mkState (self σ) (objects σ ++ [dtree.new label true pv None])).
Proof.
  intros Hc Hlen Hrem Hmax. unfold emit_node.
  rewrite bind_gets, Hc, bind_lift_ok. rewrite bool_decide_false by done.
  rewrite bind_gets, Hrem. rewrite bool_decide_true by done.
  by rewrite Hmax.
Qed.

Lemma emit_split na (rows : list row) pv σ counts igains a g :
  attr_counts rows (dependent (self σ)) = Ok counts →
  length counts ≠ 1 →
  remaining_attributes na σ ≠ [] →
  Forall2 (λ attr ag, ag.1 = attr ∧
                      information_gain (self σ) rows attr = Ok ag.2)
    (remaining_attributes na σ) igains →
  py_max Rltb snd igains = Ok (a, g) →
  emit_node na rows pv σ =
  (Ok (length (objects σ)),
   mkState (self σ) (objects σ ++ [dtree.new a false pv (Some g)])).
Proof.
  intros Hc Hlen Hrem Hgains Hmax. unfold emit_node.
  rewrite bind_gets, Hc, bind_lift_ok. rewrite bool_decide_false by done.
  rewrite bind_gets. rewrite bool_decide_false by done.
  assert (mapM (λ attr, g ← information_gain (self σ) rows attr; Ok (attr, g))
            (remaining_attributes na σ) = Ok igains) as ->.
  { clear -Hgains. induction Hgains as [|attr [a' g'] l k [Ha Hg] _ IH];
      simpl; [done|].
    simpl in Ha, Hg. rewrite Hg. simpl. rewrite IH. simpl. by subst. }
  rewrite bind_lift_ok, Hmax. done.
Qed.

Lemma create_tree_leaf_frame na fuel subset parent pv σ rows σ1 n :
  frame_rows σ subset parent pv = Ok rows →
  emit_node na rows pv σ = (Ok (length (objects σ)), σ1) →
  objects (linked parent (length (objects σ)) σ1) !! length (objects σ)
    = Some n →
  dtree.leaf n = true →
  create_tree na (S fuel) subset parent pv σ =
  (Ok (), linked parent (length (objects σ)) σ1).
Proof.
  intros Hrows Hemit Hn Hleaf. rewrite create_tree_unfold.
  unfold mbind at 1, M_bind at 1. rewrite frame_rows_run, Hrows.
  unfold mbind at 1, M_bind at 1. rewrite Hemit.
  unfold mbind at 1, M_bind at 1. rewrite link_node_linked.
  unfold mbind at 1, M_bind at 1. unfold load. rewrite Hn, Hleaf. done.
Qed.

Lemma create_tree_split_frame na fuel subset parent pv σ rows σ1 n vals :
  frame_rows σ subset parent pv = Ok rows →
  emit_node na rows pv σ = (Ok (length (objects σ)), σ1) →
  objects (linked parent (length (objects σ)) σ1) !! length (objects σ)
    = Some n →
  dtree.leaf n = false →
  values (self (linked parent (length (objects σ)) σ1)) !! dtree.attribute n
    = Some vals →
  create_tree na (S fuel) subset parent pv σ =
  for_each vals (λ value,
      create_tree na fuel (Some rows) (Some (length (objects σ))) (Some value))
    (linked parent (length (objects σ)) σ1).
Proof.
  intros Hrows Hemit Hn Hleaf Hvals. rewrite create_tree_unfold.
  unfold mbind at 1, M_bind at 1. rewrite frame_rows_run, Hrows.
  unfold mbind at 1, M_bind at 1. rewrite Hemit.
  unfold mbind at 1, M_bind at 1. rewrite link_node_linked.
  unfold mbind at 1, M_bind at 1. unfold load. rewrite Hn, Hleaf. simpl.
  rewrite bind_gets. unfold values_of. rewrite Hvals. done.
Qed.

(** ** More fuel changes nothing *)

Lemma for_each_mono {A : Type} (body1 body2 : A → M unit) (l : list A) σ r σ' :
  (∀ x σ0 r0 σ1, body1 x σ0 = (r0, σ1) → r0 ≠ Raise RecursionLimit →
                 body2 x σ0 = (r0, σ1)) →
  for_each l body1 σ = (r, σ') → r ≠ Raise RecursionLimit →
  for_each l body2 σ = (r, σ').
Proof.
  intros Hbody. revert σ. induction l as [|x l IH]; intros σ; simpl; [done|].
  intros Hrun Hr.
  apply bind_inv in Hrun as [([] & σ1 & Hx & Hrest)|(e & Hx & ->)].
  - apply Hbody in Hx; [|done]. unfold mbind, M_bind. rewrite Hx.
    by apply IH.
  - apply Hbody in Hx; [|done]. unfold mbind, M_bind. by rewrite Hx.
Qed.

(** A frame that returns, or raises anything but the recursion limit,
    does the same with more fuel. *)
Lemma create_tree_fuel_S na (fuel : nat) :
  ∀ subset parent pv σ r σ',
    create_tree na fuel subset parent pv σ = (r, σ') →
    r ≠ Raise RecursionLimit →
    create_tree na (S fuel) subset parent pv σ = (r, σ').
Proof.
  induction fuel as [|fuel IH]; intros subset parent pv σ r σ' Hrun Hr.
  { by injection Hrun as <- <-. }
  rewrite create_tree_unfold in Hrun. rewrite create_tree_unfold.
  unfold mbind at 1, M_bind at 1. unfold mbind at 1, M_bind at 1 in Hrun.
  rewrite frame_rows_run. rewrite frame_rows_run in Hrun.
  destruct (frame_rows σ subset parent pv) as [rows|e]; [|done].
  unfold mbind at 1, M_bind at 1. unfold mbind at 1, M_bind at 1 in Hrun.
  destruct (emit_node na rows pv σ) as [[k|e] σ1]; [|done].
  unfold mbind at 1, M_bind at 1. unfold mbind at 1, M_bind at 1 in Hrun.
  destruct (link_node parent k σ1) as [[[]|e] σ2]; [|done].
  unfold mbind at 1, M_bind at 1. unfold mbind at 1, M_bind at 1 in Hrun.
  destruct (load k σ2) as [[n|e] σ3]; [|done].
  destruct (negb (dtree.leaf n)); [|done].
  rewrite bind_gets. rewrite bind_gets in Hrun.
  unfold mbind at 1, M_bind at 1. unfold mbind at 1, M_bind at 1 in Hrun.
  destruct (lift (values_of (self σ3) (dtree.attribute n)) σ3)
    as [[vals|e] σ4]; [|done].
  eapply for_each_mono; [|exact Hrun|done].
  intros v σa ra σb. apply IH.
Qed.

Lemma create_tree_fuel_le na (fuel fuel' : nat) subset parent pv σ r σ' :
  fuel ≤ fuel' →
  create_tree na fuel subset parent pv σ = (r, σ') →
  r ≠ Raise RecursionLimit →
  create_tree na fuel' subset parent pv σ = (r, σ').
Proof.
  induction 1 as [|fuel' _ IH]; [done|].
  intros Hrun Hr. apply create_tree_fuel_S; [by apply IH|done].
Qed.

Lemma learn_fuel_le na (fuel fuel' : nat) table σ r σ' :
  fuel ≤ fuel' →
  learn na fuel table σ = (r, σ') →
  r ≠ Raise RecursionLimit →
  learn na fuel' table σ = (r, σ').
Proof.
  intros Hle. unfold learn.
  unfold mbind at 1 3, M_bind at 1 3.
  destruct (parse_csv table σ) as [[[]|e] σ1]; [|done].
  unfold mbind at 1 2, M_bind at 1 2.
  destruct (get_distinct_values σ1) as [[[]|e] σ2]; [|done].
  by apply create_tree_fuel_le.
Qed.

(** ** The table with conflicting rows *)

Lemma loaded_conflict :
  loaded table_conflict = (Ok (), mkState (id3_conflict None) []).
Proof. vm_compute. reflexivity. Qed.

Lemma gain_conflict_tie root :
  gain_value (id3_conflict root) rows_conflict "B" ["b"] =
  gain_value (id3_conflict root) rows_conflict "A" ["a"].
Proof. reflexivity. Qed.

Lemma root_attributes (objs : list DTree) (r : addr) (rn : DTree) :
  objs !! r = Some rn → dtree.parent rn = None → dtree.leaf rn = false →
  dtree.attributes objs r = [dtree.attribute rn].
Proof.
  intros Hr Hp Hl. unfold dtree.attributes.
  destruct (length objs) eqn:Hlen.
  { apply lookup_lt_Some in Hr. lia. }
  simpl. by rewrite Hr, Hp, Hl.
Qed.

Lemma same_data_eq (a b : ID3) : same_data a b → dtree a = dtree b → a = b.
Proof.
  destruct a, b. intros (?&?&?&?&?) ?. simpl in *. congruence.
Qed.

Ltac rows_have_tac :=
  repeat (apply List.Forall_cons; [eexists; vm_compute; reflexivity|]);
  apply List.Forall_nil.

Lemma for_each_singleton {A : Type} (x : A) (body : A → M unit) σ e σ' :
  body x σ = (Raise e, σ') → for_each [x] body σ = (Raise e, σ').
Proof. intros H. simpl. unfold mbind, M_bind. by rewrite H. Qed.

(** On [table_conflict], below the root, every frame splits on [B] again:
    the root's attributes are [A] alone, whatever the path. *)
Lemma conflict_loops (fuel : nat) :
  ∀ σ p pnode pv,
    self σ = id3_conflict (Some 0) →
    (∃ rn, objects σ !! 0 = Some rn ∧ dtree.parent rn = None ∧
           dtree.leaf rn = false ∧ dtree.attribute rn = "A") →
    objects σ !! p = Some pnode →
    (dtree.attribute pnode = "A" ∧ pv = Some "a" ∨
     dtree.attribute pnode = "B" ∧ pv = Some "b") →
    ∃ σ',
      create_tree dtree.attributes fuel (Some rows_conflict) (Some p) pv σ =
        (Raise RecursionLimit, σ') ∧
      self σ' = self σ ∧
      length (objects σ') = length (objects σ) + fuel ∧
      (∀ i nd, objects σ !! i = Some nd →
         ∃ nd', objects σ' !! i = Some nd' ∧
           dtree.parent nd' = dtree.parent nd ∧
           dtree.attribute nd' = dtree.attribute nd ∧
           dtree.leaf nd' = dtree.leaf nd) ∧
      (∀ i, length (objects σ) ≤ i → i < length (objects σ') →
         ∃ nd, objects σ' !! i = Some nd ∧ dtree.attribute nd = "B" ∧
           dtree.leaf nd = false ∧
           dtree.parent nd =
             Some (if decide (i = length (objects σ)) then p else i - 1)).
Proof.
  induction fuel as [|fuel IH]; intros σ p pnode pv Hself Hroot Hp Hpv.
  { exists σ. split_and!; [done|done|lia|by eauto|lia]. }
  destruct Hroot as (rn & Hrn & Hrpar & Hrleaf & Hrattr).
  set (k := length (objects σ)).
  set (g := gain_value (self σ) rows_conflict "B" ["b"]).
  assert (p < k) as Hpk by (by apply lookup_lt_Some in Hp).
  assert (frame_rows σ (Some rows_conflict) (Some p) pv = Ok rows_conflict)
    as Hrows.
  { unfold frame_rows. rewrite Hp.
    destruct Hpv as [[-> ->]|[-> ->]]; vm_compute; reflexivity. }
  assert (remaining_attributes dtree.attributes σ = ["B"]) as Hrem.
  { unfold remaining_attributes. rewrite Hself. simpl.
    rewrite (root_attributes _ _ _ Hrn Hrpar Hrleaf), Hrattr. reflexivity. }
  assert (emit_node dtree.attributes rows_conflict pv σ =
          (Ok k, mkState (self σ)
                   (objects σ ++ [dtree.new "B" false pv (Some g)]))) as Hemit.
  { eapply emit_split.
    - rewrite Hself. vm_compute. reflexivity.
    - simpl. lia.
    - by rewrite Hrem.
    - rewrite Hrem.
      refine (List.Forall2_cons _ (_, _) _ (List.Forall2_nil _)).
      simpl. split; [reflexivity|].
      apply information_gain_ok; [done| | |].
      + rows_have_tac.
      + rewrite Hself. rows_have_tac.
      + rewrite Hself. reflexivity.
    - reflexivity. }
  destruct (link_node_effect (Some p) (dtree.new "B" false pv (Some g)) σ)
    as (σ2 & n2 & Hlink & Hsame & Hdt & Hlen2 & Hlow2 & Hk2 & Hattr & Hleaf &
        _ & _ & _ & Hpar).
  { intros ? [= <-]. done. }
  fold k in Hlink, Hlen2, Hlow2, Hk2. simpl in Hattr, Hleaf.
  assert (linked (Some p) k
            (mkState (self σ) (objects σ ++ [dtree.new "B" false pv (Some g)]))
          = σ2) as Hlinked.
  { unfold linked. by rewrite Hlink. }
  assert (self σ2 = id3_conflict (Some 0)) as Hself2.
  { rewrite <- Hself. symmetry. by apply same_data_eq. }
  erewrite create_tree_split_frame; [|exact Hrows|exact Hemit| | |].
  - fold k. rewrite Hlinked.
    destruct (IH σ2 k n2 (Some "b")) as (σ' & Hrun & Hs & Hlen & Hkept & Hnew);
      try done.
    + rewrite Hlow2 by lia. case_decide as Hd.
      * injection Hd as ->. rewrite Hrn. simpl. by eexists.
      * by exists rn.
    + by right.
    + exists σ'.
      split_and!; [by apply for_each_singleton|congruence|lia| |].
      * intros i nd Hi.
        assert (i < k) as Hik by (by apply lookup_lt_Some in Hi).
        specialize (Hlow2 i Hik). rewrite Hi in Hlow2.
        destruct (decide (Some p = Some i)); simpl in Hlow2;
          destruct (Hkept i _ Hlow2) as (nd' & ? & ? & ? & ?); by exists nd'.
      * intros i Hki Hi. destruct (decide (i = k)) as [->|Hne].
        -- destruct (Hkept k n2 Hk2) as (nd' & ? & Hp' & Ha' & Hl').
           exists nd'. split_and!; [done|congruence|congruence|].
           by rewrite Hp', Hpar.
        -- destruct (Hnew i) as (nd & ? & ? & ? & Hp'); [lia|done|].
           exists nd. split_and!; [done..|]. rewrite Hp', Hlen2.
           f_equal. fold k. repeat case_decide; lia.
  - fold k. by rewrite Hlinked.
  - done.
  - fold k. rewrite Hlinked, Hself2, Hattr. reflexivity.
Qed.

Lemma Rltb_irrefl (x : R) : Rltb x x = false.
Proof. apply Rltb_false. lra. Qed.

Lemma emit_conflict_root pv :
  emit_node dtree.attributes rows_conflict pv (mkState (id3_conflict None) []) =
  (Ok 0,
   mkState (id3_conflict None)
     [dtree.new "A" false pv
        (Some (gain_value (id3_conflict None) rows_conflict "A" ["a"]))]).
Proof.
  eapply (emit_split dtree.attributes rows_conflict pv
            (mkState (id3_conflict None) []) _ _ "A").
  - vm_compute. reflexivity.
  - simpl. lia.
  - done.
  - refine (List.Forall2_cons _ (_, _) _
              (List.Forall2_cons _ (_, _) _ (List.Forall2_nil _)));
      (simpl; split; [reflexivity|]);
      (apply information_gain_ok; [done|rows_have_tac|rows_have_tac|reflexivity]).
  - unfold py_max, max_from.
    rewrite (gain_conflict_tie None). simpl. by rewrite Rltb_irrefl.
Qed.

Lemma conflict_root (fuel : nat) :
  ∃ σ',
    create_tree dtree.attributes (S fuel) None None None
      (mkState (id3_conflict None) []) = (Raise RecursionLimit, σ') ∧
    self σ' = id3_conflict (Some 0) ∧
    length (objects σ') = S fuel ∧
    (∀ i, 0 < i → i < S fuel →
       ∃ nd, objects σ' !! i = Some nd ∧ dtree.attribute nd = "B" ∧
         dtree.leaf nd = false ∧ dtree.parent nd = Some (i - 1)).
Proof.
  erewrite create_tree_split_frame;
    [|reflexivity|apply emit_conflict_root|reflexivity|reflexivity|reflexivity].
  edestruct (conflict_loops fuel) as (σ' & Hrun & Hs & Hlen & _ & Hnew);
    cycle 4.
  - exists σ'. split_and!; [apply for_each_singleton, Hrun|exact Hs| |].
    + rewrite Hlen. simpl. lia.
    + intros i Hi0 Hi.
      destruct (Hnew i) as (nd & ? & ? & ? & Hp'); [simpl; lia| |].
      { rewrite Hlen. simpl. lia. }
      exists nd. split_and!; [done..|]. rewrite Hp'. simpl.
      f_equal. repeat case_decide; lia.
  - reflexivity.
  - eexists. split_and!; reflexivity.
  - reflexivity.
  - left. split; reflexivity.
Qed.

(** ** A table without rows *)




(** ** The rows line 173 selects *)

Lemma filter_selects (attr : string) (value : pyval) (subset : list row) :
  rows_have subset attr →
  filter (λ r, selects attr value r) subset = rows_counted attr value subset.
Proof.
  intros Hrows. induction Hrows as [|r rest [v Hv] _ IH]; [by destruct value|].
  destruct value as [s|b]; simpl in *.
  - rewrite !filter_cons, IH. unfold selects. rewrite Hv. simpl.
    rewrite orb_false_r.
    destruct (decide (v = s)) as [->|Hne].
    + rewrite decide_True by (by apply bool_decide_pack).
      by rewrite decide_True by done.
    + rewrite decide_False by (by intros ?%bool_decide_unpack).
      by rewrite decide_False by congruence.
  - rewrite filter_cons_True, IH; [done|]. unfold selects. simpl.
    done.
Qed.

Lemma occurrences_counted this (subset : list row) attr value :
  rows_have subset attr →
  occurrences this subset attr value =
  tally (column (rows_counted attr value subset) (dependent this)).
Proof. intros Hrows. unfold occurrences. by rewrite filter_selects. Qed.


(** ** The base entropy *)

(** With a boolean [value] the counter does not depend on [attr], as long
    as the rows have it: even the [KeyError] for a missing dependent
    value is the same. *)
Lemma value_occurrences_loop_bool this (subset : list row) (a b : string)
    (flag : bool) (c : Counter) :
  rows_have subset a → rows_have subset b →
  value_occurrences_loop this c subset a (PBool flag) =
  value_occurrences_loop this c subset b (PBool flag).
Proof.
  intros Ha. revert c. induction Ha as [|r rest [va Hva] _ IH]; intros c Hb;
    [done|].
  apply Forall_cons in Hb as [[vb Hvb] Hb]. simpl.
  rewrite (getitem_Some _ _ _ Hva), (getitem_Some _ _ _ Hvb). simpl.
  destruct (getitem r (dependent this)); simpl; [|done]. by apply IH.
Qed.

Lemma value_occurrences_loop_dependent this (subset : list row) (a : string)
    (flag : bool) (c : Counter) :
  rows_have subset a →
  value_occurrences_loop this c subset (dependent this) (PBool flag) =
  value_occurrences_loop this c subset a (PBool flag).
Proof.
  intros Ha. revert c. induction Ha as [|r rest [va Hva] _ IH]; intros c;
    [done|].
  simpl. rewrite (getitem_Some _ _ _ Hva). simpl.
  destruct (getitem r (dependent this)); simpl; [|done]. by apply IH.
Qed.


(** ** Domain values absent from the subset *)

Lemma rows_counted_absent (subset : list row) (attr value : string) :
  rows_have subset attr →
  counter_get (tally (column subset attr)) value = 0 →
  rows_counted attr (PStr value) subset = [].
Proof.
  intros Hrows Hget. unfold tally in Hget. rewrite tally_from_get in Hget.
  simpl in Hget. apply nil_length_inv in Hget.
  induction Hrows as [|r rest [v Hv] _ IH]; [done|].
  simpl in *. rewrite Hv in Hget. simpl in Hget.
  rewrite filter_cons in Hget. rewrite filter_cons.
  destruct (decide (v = value)) as [->|Hne]; [done|].
  rewrite decide_False by congruence. by apply IH.
Qed.

Lemma entropy_absent this (subset : list row) (attr value : string) :
  rows_have subset attr →
  rows_have subset (dependent this) →
  counter_get (tally (column subset attr)) value = 0 →
  entropy this subset attr (PStr value) = Ok 0%R.
Proof.
  intros Ha Hd Hget. rewrite entropy_ok by done.
  rewrite occurrences_counted by done.
  by rewrite rows_counted_absent.
Qed.


(** ** Bounds on the entropy *)

#[local] Open Scope R_scope.

Lemma ln_2_pos : 0 < ln 2.
Proof. pose proof ln_lt_2. lra. Qed.


Lemma ln_monotone (x y : R) : 0 < x → x <= y → ln x <= ln y.
Proof.
  intros Hx [Hlt| ->]; [|lra]. left. by apply ln_increasing.
Qed.

Lemma ln_nonpos (x : R) : 0 < x → x <= 1 → ln x <= 0.
Proof. intros Hx Hle. rewrite <- ln_1. by apply ln_monotone. Qed.


Lemma Rsum_cons (x : R) (l : list R) : Rsum (x :: l) = x + Rsum l.
Proof. done. Qed.

Lemma entropy_from_sum (occs : Counter) (e total : R) :
  entropy_from e total occs =
  e + Rsum ((λ kn, plogp kn.2 total) <$> occs).
Proof.
  revert e. induction occs as [|[k n] occs IH]; intros e.
  - simpl. unfold Rsum. simpl. lra.
  - unfold entropy_from in *. rewrite fmap_cons, Rsum_cons. cbn [foldl snd].
    rewrite IH. ring.
Qed.

Lemma plogp_scaled (n : nat) (total : R) :
  plogp n total * ln 2 = - (INR n / total * ln (INR n / total)).
Proof.
  unfold plogp. set (p := INR n / total). field. pose proof ln_2_pos. lra.
Qed.



Lemma entry_le_total (occs : Counter) (key : string) (n : nat) :
  (key, n) ∈ occs → (n <= counter_total occs)%nat.
Proof.
  unfold counter_total. induction occs as [|[k m] occs IH].
  - by intros ?%elem_of_nil.
  - intros [[= -> ->]|Hin]%elem_of_cons.
    + apply Nat.le_add_r.
    + eapply Nat.le_trans; [exact (IH Hin)|]. apply Nat.le_add_l.
Qed.

Lemma plogp_nonneg (n T : nat) :
  (0 < n)%nat → (n <= T)%nat → 0 <= plogp n (INR T).
Proof.
  intros Hn HT. unfold plogp.
  assert (0 < INR n / INR T) as Hp by (apply proportion_pos; lia).
  assert (INR n / INR T <= 1) as Hp1.
  { assert (0 < INR T) as HT0 by (apply lt_0_INR; lia).
    pose proof (le_INR _ _ HT) as Hle.
    replace 1 with (INR T / INR T) by (field; lra).
    unfold Rdiv. apply Rmult_le_compat_r; [|done].
    left. by apply Rinv_0_lt_compat. }
  pose proof (ln_nonpos _ Hp Hp1) as Hln. pose proof ln_2_pos as H2.
  assert (0 < / ln 2) as Hi2 by (by apply Rinv_0_lt_compat).
  assert (ln (INR n / INR T) / ln 2 <= 0) as Hq.
  { unfold Rdiv at 1. nra. }
  nra.
Qed.

#[local] Close Scope R_scope.

Lemma Rsum_nonneg (l : list R) : Forall (λ x, (0 <= x)%R) l → (0 <= Rsum l)%R.
Proof.
  induction 1 as [|x l Hx _ IH]; [unfold Rsum; simpl; lra|].
  rewrite Rsum_cons. lra.
Qed.

Lemma entropy_value_nonneg (occs : Counter) :
  Forall (λ kn, 0 < kn.2) occs → (0 <= entropy_value occs)%R.
Proof.
  intros Hpos. unfold entropy_value. rewrite entropy_from_sum.
  rewrite Rplus_0_l. apply Rsum_nonneg, Forall_fmap, Forall_forall.
  intros [key n] Hin. simpl. apply plogp_nonneg.
  - rewrite Forall_forall in Hpos. by apply (Hpos (key, n)).
  - by eapply entry_le_total.
Qed.





(** ** The table with two separable rows *)

Lemma loaded_small : loaded table_small = (Ok (), mkState (id3_small None) []).
Proof. vm_compute. reflexivity. Qed.

Lemma run_small na fuel :
  learn na (S (S fuel)) table_small init =
  (Ok (), mkState (id3_small (Some 0)) tree_small).
Proof.
  rewrite (learn_loaded _ _ _ _ loaded_small).
  erewrite create_tree_split_frame; cycle 1.
  - reflexivity.
  - eapply emit_split.
    + vm_compute. reflexivity.
    + simpl. lia.
    + done.
    + unfold remaining_attributes. simpl.
      refine (List.Forall2_cons _ (_, _) _ (List.Forall2_nil _)).
      simpl. split; [reflexivity|].
      apply information_gain_ok; [done| | |].
      * unfold rows_have. simpl. rows_have_tac.
      * unfold rows_have. simpl. rows_have_tac.
      * reflexivity.
    + reflexivity.
  - reflexivity.
  - reflexivity.
  - reflexivity.
  - cbn [for_each].
    unfold mbind at 1, M_bind at 1.
    erewrite create_tree_leaf_frame; cycle 1.
    + reflexivity.
    + eapply emit_pure_leaf. vm_compute. reflexivity.
    + reflexivity.
    + reflexivity.
    + unfold mbind at 1, M_bind at 1.
      erewrite create_tree_leaf_frame; cycle 1.
      * reflexivity.
      * eapply emit_pure_leaf. vm_compute. reflexivity.
      * reflexivity.
      * reflexivity.
      * reflexivity.
Qed.
(** A frame whose subset is empty raises: [max] of the empty tally when no
    attribute remains, the division by the zero total otherwise. *)
Lemma empty_subset_raises na (fuel : nat) σ subset parent pv :
  frame_rows σ subset parent pv = Ok [] →
  domains_loaded (self σ) →
  rows_complete (self σ) →
  data (self σ) ≠ [] →
  (∀ a, a ∈ attributes (self σ) → a ∈ all_attributes (self σ)) →
  ∃ e, create_tree na (S fuel) subset parent pv σ = (Raise e, σ) ∧
       (e = ZeroDivisionError ∨ e = ValueError).
Proof.
  intros Hrows Hdom Hcomplete Hdata Hattrs.
  rewrite create_tree_unfold.
  unfold mbind at 1, M_bind at 1. rewrite frame_rows_run, Hrows.
  unfold mbind at 1, M_bind at 1.
  unfold emit_node. rewrite bind_gets.
  change (attr_counts [] (dependent (self σ))) with (Ok ([] : Counter)).
  rewrite bind_lift_ok. rewrite bool_decide_false by (simpl; lia).
  rewrite bind_gets.
  destruct (remaining_attributes na σ) as [|a0 rest] eqn:Hrem.
  - rewrite bool_decide_true by done. simpl. exists ValueError. by split; [|right].
  - rewrite bool_decide_false by done.
    assert (a0 ∈ all_attributes (self σ)) as Ha0.
    { apply Hattrs. assert (a0 ∈ remaining_attributes na σ) as Hin
        by (rewrite Hrem; set_solver).
      unfold remaining_attributes in Hin.
      destruct (dtree (self σ)); [|done].
      by apply list_elem_of_filter in Hin as [_ ?]. }
    assert (information_gain (self σ) [] a0 = Raise ZeroDivisionError) as Hg.
    { rewrite (information_gain_empty _ _ (py_set (column (data (self σ)) a0))).
      - destruct (data (self σ)) as [|r rows] eqn:Hd; [done|].
        destruct (py_set (column (r :: rows) a0)) as [|v vs] eqn:Hset; [|done].
        assert (default "" (r !! a0) ∈ py_set (column (r :: rows) a0)) as Hin.
        { apply elem_of_py_set. simpl. set_solver. }
        rewrite Hset in Hin. by apply elem_of_nil in Hin.
      - rewrite Hdom. by rewrite decide_True. }
    cbn [mapM]. rewrite Hg. simpl.
    exists ZeroDivisionError. by split; [|left].
Qed.

(** * Runs on given tables *)

(** ** The gain as a sum of terms *)

Lemma gain_from_sum this (subset : list row) attr occs total gain vals :
  gain_from this subset attr occs total gain vals =
  (gain + Rsum (gain_term this subset attr occs total <$> vals))%R.
Proof.
  unfold gain_from. revert gain.
  induction vals as [|v vals IH]; intros gain; cbn [foldl].
  - unfold Rsum. simpl. lra.
  - rewrite IH, fmap_cons, Rsum_cons. lra.
Qed.

Lemma gain_value_base this (subset : list row) attr vals :
  rows_have subset (dependent this) →
  gain_value this subset attr vals =
  (entropy_value (tally (column subset (dependent this))) +
   Rsum (gain_term this subset attr (tally (column subset attr))
           (INR (length subset)) <$> vals))%R.
Proof.
  intros Hd. unfold gain_value. rewrite gain_from_sum.
  rewrite occurrences_counted by done. simpl rows_counted.
  rewrite tally_total. unfold column. by rewrite length_fmap.
Qed.

Lemma entropy_value_singleton (key : string) (n : nat) :
  0 < n → entropy_value [(key, n)] = 0%R.
Proof.
  intros Hn. unfold entropy_value, entropy_from, counter_total, plogp.
  simpl. rewrite Nat.add_0_r.
  assert (0 < INR n)%R as Hn' by (by apply lt_0_INR).
  replace (INR n / INR n)%R with 1%R by (field; lra).
  rewrite ln_1. lra.
Qed.

(** ** Ties and comparisons of gains *)

(** Gains that are the same real number: no candidate displaces the
    first one. *)
Ltac gains_tie :=
  cbn [snd];
  repeat match goal with
         | |- context [Rltb ?x ?y] =>
             assert (Rltb x y = false) as ->
               by (apply Rltb_false; right; reflexivity)
         end.

(** ** The tables *)

Lemma reload_small (root : option addr) (objs : list DTree) :
  (parse_csv table_small ≫= λ _, get_distinct_values)
    (mkState (id3_small root) objs) =
  (Ok (), mkState (id3_small root) objs).
Proof. vm_compute. reflexivity. Qed.

Lemma loaded_three :
  loaded table_three = (Ok (), mkState (id3_three None) []).
Proof. vm_compute. reflexivity. Qed.

Lemma gain_three_tie root (a b : string) (va vb : string) :
  (a, va) ∈ [("A", "a"); ("B", "b"); ("C", "c")] →
  (b, vb) ∈ [("A", "a"); ("B", "b"); ("C", "c")] →
  gain_value (id3_three root) rows_three a [va] =
  gain_value (id3_three root) rows_three b [vb].
Proof.
  intros Ha Hb.
  repeat (apply elem_of_cons in Ha as [[= -> ->]|Ha]);
    repeat (apply elem_of_cons in Hb as [[= -> ->]|Hb]);
    try (by apply elem_of_nil in Ha); try (by apply elem_of_nil in Hb);
    reflexivity.
Qed.

Lemma loaded_sparse :
  loaded table_sparse = (Ok (), mkState (id3_sparse None) []).
Proof. vm_compute. reflexivity. Qed.

(** Evaluation of the counters in a gain over given rows. *)
Ltac eval_counters :=
  repeat match goal with
         | |- context [counter_get (tally ?l) ?v] =>
             let n := eval vm_compute in (counter_get (tally l) v) in
             change (counter_get (tally l) v) with n
         end;
  repeat match goal with
         | |- context [tally (column ?rows ?a)] =>
             let c := eval vm_compute in (tally (column rows a)) in
             change (tally (column rows a)) with c
         end.

Lemma gain_sparse_order :
  (gain_value (id3_sparse None) rows_sparse "B" ["z"; "w"; "x"] <=
   gain_value (id3_sparse None) rows_sparse "A" ["p"; "s"; "q"])%R.
Proof.
  rewrite !gain_value_base by rows_have_tac.
  rewrite !fmap_cons, !fmap_nil, !Rsum_cons.
  change (Rsum []) with 0%R.
  set (base := entropy_value _).
  unfold gain_term. rewrite !occurrences_counted by rows_have_tac.
  eval_counters.
  rewrite !entropy_value_singleton by lia.
  pose proof (entropy_value_nonneg [("n", 1); ("y", 1)]
                ltac:(repeat constructor)) as Hx.
  set (e1 := entropy_value [("y", 1); ("n", 1)]) in *.
  set (e2 := entropy_value [("n", 1); ("y", 1)]) in *.
  simpl INR. lra.
Qed.

Lemma for_each_raise {A : Type} (x : A) (l : list A) (body : A → M unit)
    σ e σ' :
  body x σ = (Raise e, σ') → for_each (x :: l) body σ = (Raise e, σ').
Proof.
  intros Hx. cbn [for_each]. unfold mbind, M_bind. by rewrite Hx.
Qed.

Lemma empty_frame_division na (fuel : nat) σ subset parent pv a rest v vs :
  frame_rows σ subset parent pv = Ok [] →
  remaining_attributes na σ = a :: rest →
  values (self σ) !! a = Some (v :: vs) →
  create_tree na (S fuel) subset parent pv σ = (Raise ZeroDivisionError, σ).
Proof.
  intros Hrows Hrem Hdom.
  rewrite create_tree_unfold.
  unfold mbind at 1, M_bind at 1. rewrite frame_rows_run, Hrows.
  unfold mbind at 1, M_bind at 1.
  unfold emit_node. rewrite bind_gets.
  change (attr_counts [] (dependent (self σ))) with (Ok ([] : Counter)).
  rewrite bind_lift_ok. rewrite bool_decide_false by (simpl; lia).
  rewrite bind_gets, Hrem. rewrite bool_decide_false by done.
  cbn [mapM]. rewrite (information_gain_empty _ _ _ Hdom). done.
Qed.


(** * The claims *)

(** ** C1: the attributes eligible at a frame *)

(** C1 (fails on the code).  The claim: the attributes eligible at a frame
    are the independent attributes minus the split attributes on the path
    from the root to the frame's parent.  [remaining_attributes] reads the
    attributes of [self.dtree], the root, whatever the frame.  On
    [table_conflict], with fuel for two frames, the run stops on entering
    the third frame, whose parent is the node at address 1: the path to
    that node is [A; B], so [path_eligible] is empty, and the code's
    eligible set is [B], the parent's own split attribute. *)
Theorem conflict_parent_attribute_eligible :
  learn dtree.attributes 2 table_conflict init =
    (Raise RecursionLimit, mkState (id3_conflict (Some 0)) tree_conflict) ∧
  dtree.attributes tree_conflict 1 = ["A"; "B"] ∧
  path_eligible (mkState (id3_conflict (Some 0)) tree_conflict) 1 = [] ∧
  remaining_attributes dtree.attributes
    (mkState (id3_conflict (Some 0)) tree_conflict) = ["B"].
Proof.
  split_and!; [|reflexivity..].
  rewrite (learn_loaded _ _ _ _ loaded_conflict).
  erewrite create_tree_split_frame;
    [|reflexivity|apply emit_conflict_root|reflexivity|reflexivity|reflexivity].
  apply for_each_singleton.
  erewrite create_tree_split_frame; cycle 1.
  - reflexivity.
  - eapply (emit_split dtree.attributes rows_conflict (Some "a") _ _ _ "B").
    + vm_compute. reflexivity.
    + simpl. lia.
    + done.
    + refine (List.Forall2_cons _ (_, _) _ (List.Forall2_nil _)).
      simpl; split; [reflexivity|].
      apply information_gain_ok; [done|rows_have_tac|rows_have_tac|reflexivity].
    + reflexivity.
  - reflexivity.
  - reflexivity.
  - reflexivity.
  - reflexivity.
Qed.


(** ** C2: a table without rows *)






(** ** C3: the rows [entropy] counts *)

(** C3 (amended).  On rows that have [attr] and the dependent attribute,
    [entropy] counts every row when [value] is a boolean, [True] or
    [False], and the rows with [row[attr] == value] when it is a string:
    the counter is the tally of the dependent value over [rows_counted]. *)
Theorem entropy_counts_rows (this : ID3) (subset : list row) (attr : string)
    (value : pyval) :
  rows_have subset attr →
  rows_have subset (dependent this) →
  value_occurrences this subset attr value =
    Ok (tally (column (rows_counted attr value subset) (dependent this))) ∧
  entropy this subset attr value =
    Ok (entropy_value
          (tally (column (rows_counted attr value subset) (dependent this)))).
Proof.
  intros Ha Hd. rewrite <- occurrences_counted by done. split.
  - by apply value_occurrences_ok.
  - by apply entropy_ok.
Qed.

Lemma entropy_counts_rows_witness :
  entropy (id3_small None) rows_small "A" (PBool false) =
  Ok (entropy_value (tally (column rows_small "Y"))).
Proof.
  apply (entropy_counts_rows (id3_small None) rows_small "A" (PBool false)).
  - repeat (apply List.Forall_cons; [eexists; vm_compute; reflexivity|]).
    apply List.Forall_nil.
  - repeat (apply List.Forall_cons; [eexists; vm_compute; reflexivity|]).
    apply List.Forall_nil.
Defined.

(** C3 as stated counts, for every value other than [True], the rows with
    [row[attr] == value] only; for [False] that is no row, and the code
    counts them all. *)
Lemma false_counts_every_row :
  value_occurrences (id3_small None) rows_small "A" (PBool false) ≠
  Ok (tally (column (rows_for_true_only "A" (PBool false) rows_small) "Y")).
Proof.
  vm_compute. discriminate.
Qed.

(** ** C4: the shape of the tree *)

(** C4 (fails on the code).  The claim: every internal node has one child
    per value of the domain of its split attribute, also for the values
    that no row of the node's subset has.  The loop of lines 79-84 does
    run over the whole domain, but the frame it enters for a value
    without rows raises: its tally is empty, and with an attribute left
    [information_gain] divides by the zero total.  On [table_sparse] the
    child of the root under [A = q] splits on [B]; none of its rows has
    [B = z], a value of the domain of [B]; the frame for [z] raises
    [ZeroDivisionError], [learn] stops with it, whatever the recursion
    limit of three frames or more, and the node has no child for [z]. *)
Theorem sparse_domain_value_has_no_child (fuel : nat) :
  ∃ σ',
    learn dtree.attributes (S (S (S fuel))) table_sparse init =
      (Raise ZeroDivisionError, σ') ∧
    ∃ n node vals,
      objects σ' !! n = Some node ∧ dtree.leaf node = false ∧
      dtree.attribute node = "B" ∧ dtree.parent_value node = Some "q" ∧
      filter_subset rows_sparse "A" (Some "q") = Ok rows_sparse_q ∧
      filter_subset rows_sparse_q "B" (Some "z") = Ok [] ∧
      values (self σ') !! "B" = Some vals ∧ "z" ∈ vals ∧
      dtree.children node !! Some "z" = None.
Proof.
  exists (mkState (id3_sparse (Some 0)) tree_sparse). split.
  2: { eexists 3, _, _. split_and!; [reflexivity..|set_solver|reflexivity]. }
  rewrite (learn_loaded _ _ _ _ loaded_sparse).
  erewrite create_tree_split_frame; cycle 1.
  { reflexivity. }
  { eapply (emit_split dtree.attributes rows_sparse None
              (mkState (id3_sparse None) []) _ _ "A").
    - vm_compute. reflexivity.
    - simpl. lia.
    - done.
    - refine (List.Forall2_cons _ (_, _) _
                (List.Forall2_cons _ (_, _) _ (List.Forall2_nil _)));
        (simpl; split; [reflexivity|]);
        (apply information_gain_ok;
           [done|rows_have_tac|rows_have_tac|reflexivity]).
    - unfold py_max, max_from. cbn [snd].
      by rewrite (proj2 (Rltb_false _ _) gain_sparse_order). }
  { reflexivity. }
  { reflexivity. }
  { reflexivity. }
  cbn [for_each].
  unfold mbind at 1, M_bind at 1.
  erewrite create_tree_leaf_frame; cycle 1.
  { reflexivity. }
  { eapply emit_pure_leaf. vm_compute. reflexivity. }
  { reflexivity. }
  { reflexivity. }
  unfold mbind at 1, M_bind at 1.
  erewrite create_tree_leaf_frame; cycle 1.
  { reflexivity. }
  { eapply emit_pure_leaf. vm_compute. reflexivity. }
  { reflexivity. }
  { reflexivity. }
  unfold mbind at 1, M_bind at 1.
  erewrite create_tree_split_frame; cycle 1.
  { reflexivity. }
  { eapply (emit_split dtree.attributes rows_sparse_q (Some "q") _ _ _ "B").
    - vm_compute. reflexivity.
    - simpl. lia.
    - done.
    - refine (List.Forall2_cons _ (_, _) _ (List.Forall2_nil _)).
      simpl; split; [reflexivity|].
      apply information_gain_ok; [done|rows_have_tac|rows_have_tac|reflexivity].
    - reflexivity. }
  { reflexivity. }
  { reflexivity. }
  { reflexivity. }
  erewrite for_each_raise; [reflexivity|].
  eapply empty_frame_division; reflexivity.
Qed.


(** ** C5: the split attribute *)

(** C5 (fails on the code).  The claim: the node a frame emits splits on
    the eligible attribute of maximal gain, the eligible attributes being
    the independent ones minus those on the path to the frame's parent
    (C1).  The code takes the maximum over [remaining_attributes], which
    subtracts the attributes of the root only.  On [table_three] the
    frame entered for the value [b] of the node at address 1 has the path
    [A; B] above it, so [C] is the one eligible attribute; the two rows
    carry two labels; yet the node the frame emits, at address 2, splits
    on [B] again, the first of the code's candidates [B; C], which have
    the same gain.  With fuel for three frames the run stops on entering
    the fourth. *)
Theorem three_split_not_eligible :
  learn dtree.attributes 3 table_three init =
    (Raise RecursionLimit, mkState (id3_three (Some 0)) tree_three) ∧
  dtree.attributes tree_three 1 = ["A"; "B"] ∧
  path_eligible (mkState (id3_three (Some 0)) tree_three) 1 = ["C"] ∧
  (∃ node g,
     tree_three !! 2 = Some node ∧ dtree.parent node = Some 1 ∧
     dtree.parent_value node = Some "b" ∧ dtree.leaf node = false ∧
     dtree.attribute node = "B" ∧ dtree.information_gain node = Some g ∧
     information_gain (id3_three (Some 0)) rows_three "C" = Ok g) ∧
  attr_counts rows_three "Y" = Ok [("y", 1); ("n", 1)].
Proof.
  split_and!; [|reflexivity|reflexivity| |reflexivity].
  - rewrite (learn_loaded _ _ _ _ loaded_three).
    erewrite create_tree_split_frame; cycle 1.
    { reflexivity. }
    { eapply (emit_split dtree.attributes rows_three None
                (mkState (id3_three None) []) _ _ "A").
      - vm_compute. reflexivity.
      - simpl. lia.
      - done.
      - refine (List.Forall2_cons _ (_, _) _
                  (List.Forall2_cons _ (_, _) _
                     (List.Forall2_cons _ (_, _) _ (List.Forall2_nil _))));
          (simpl; split; [reflexivity|]);
          (apply information_gain_ok;
             [done|rows_have_tac|rows_have_tac|reflexivity]).
      - unfold py_max, max_from. gains_tie. reflexivity. }
    { reflexivity. }
    { reflexivity. }
    { reflexivity. }
    apply for_each_singleton.
    erewrite create_tree_split_frame; cycle 1.
    { reflexivity. }
    { eapply (emit_split dtree.attributes rows_three (Some "a") _ _ _ "B").
      - vm_compute. reflexivity.
      - simpl. lia.
      - done.
      - refine (List.Forall2_cons _ (_, _) _
                  (List.Forall2_cons _ (_, _) _ (List.Forall2_nil _)));
          (simpl; split; [reflexivity|]);
          (apply information_gain_ok;
             [done|rows_have_tac|rows_have_tac|reflexivity]).
      - unfold py_max, max_from. gains_tie. reflexivity. }
    { reflexivity. }
    { reflexivity. }
    { reflexivity. }
    apply for_each_singleton.
    erewrite create_tree_split_frame; cycle 1.
    { reflexivity. }
    { eapply (emit_split dtree.attributes rows_three (Some "b") _ _ _ "B").
      - vm_compute. reflexivity.
      - simpl. lia.
      - done.
      - refine (List.Forall2_cons _ (_, _) _
                  (List.Forall2_cons _ (_, _) _ (List.Forall2_nil _)));
          (simpl; split; [reflexivity|]);
          (apply information_gain_ok;
             [done|rows_have_tac|rows_have_tac|reflexivity]).
      - unfold py_max, max_from. gains_tie. reflexivity. }
    { reflexivity. }
    { reflexivity. }
    { reflexivity. }
    reflexivity.
  - eexists _, _. split_and!; [reflexivity..|].
    rewrite (gain_three_tie (Some 0) "B" "C" "b" "c") by set_solver.
    apply information_gain_ok; [done|rows_have_tac|rows_have_tac|reflexivity].
Qed.


(** ** C6: no exception from [information_gain] *)

(** C6.  On a non-empty subset whose rows have [attr] and the dependent
    attribute, [information_gain] returns.  A value that occurs in no
    row of the subset has weight [0 / total = 0] and entropy [0], without
    any exception, and the loop goes on with the gain it had. *)

Theorem information_gain_never_raises (this : ID3) (subset : list row)
    (attr : string) (vals : list string) :
  subset ≠ [] →
  rows_have subset attr →
  rows_have subset (dependent this) →
  values this !! attr = Some vals →
  (∃ g, information_gain this subset attr = Ok g) ∧
  ∃ occs, attr_counts subset attr = Ok occs ∧
    ∀ value gain rest, counter_get occs value = 0 →
      py_div (INR (counter_get occs value)) (INR (counter_total occs))
        = Ok 0%R ∧
      entropy this subset attr (PStr value) = Ok 0%R ∧
      information_gain_loop this subset attr occs (INR (counter_total occs))
        gain (value :: rest) =
      information_gain_loop this subset attr occs (INR (counter_total occs))
        gain rest.
Proof.
  intros Hne Ha Hd Hvals. split.
  { eexists. by apply information_gain_ok. }
  exists (tally (column subset attr)). split; [by apply attr_counts_ok|].
  intros value gain rest Hget.
  assert (0 < counter_total (tally (column subset attr))) as Htotal.
  { rewrite tally_total. unfold column. rewrite length_fmap.
    destruct subset; [done|simpl; lia]. }
  assert (py_div (INR (counter_get (tally (column subset attr)) value))
            (INR (counter_total (tally (column subset attr)))) = Ok 0%R)
    as Hdiv.
  { rewrite py_div_ok by (by apply INR_pos_ne). rewrite Hget. simpl.
    f_equal. unfold Rdiv. ring. }
  pose proof (entropy_absent this subset attr value Ha Hd Hget) as Hent.
  split_and!; [done|done|].
  cbn [information_gain_loop]. rewrite Hdiv, Hent. simpl.
  f_equal. ring.
Qed.

Lemma information_gain_never_raises_witness :
  (∃ g, information_gain (id3_small None) rows_first "A" = Ok g) ∧
  ∃ occs, attr_counts rows_first "A" = Ok occs ∧
    ∀ value gain rest, counter_get occs value = 0 →
      py_div (INR (counter_get occs value)) (INR (counter_total occs))
        = Ok 0%R ∧
      entropy (id3_small None) rows_first "A" (PStr value) = Ok 0%R ∧
      information_gain_loop (id3_small None) rows_first "A" occs
        (INR (counter_total occs)) gain (value :: rest) =
      information_gain_loop (id3_small None) rows_first "A" occs
        (INR (counter_total occs)) gain rest.
Proof.
  apply (information_gain_never_raises (id3_small None) rows_first "A"
           ["a"; "b"]).
  - discriminate.
  - repeat (apply List.Forall_cons; [eexists; vm_compute; reflexivity|]).
    apply List.Forall_nil.
  - repeat (apply List.Forall_cons; [eexists; vm_compute; reflexivity|]).
    apply List.Forall_nil.
  - reflexivity.
Defined.


(** ** C7: determinism *)

(** C7 (fails on the code).  The claim: invoking [learn] repeatedly gives
    structurally identical trees.  [learn] never resets [self.dtree], and
    the root frame of [create_tree] reads [remaining_attributes], which
    subtracts the attributes of the tree of the previous run.  On
    [table_small] the first run builds a split on [A] with a leaf per
    value; the second run on the same inducer, whose root's attributes
    contain the attribute [A] the root splits on, finds no attribute
    left and builds the single leaf [y]. *)
Theorem learn_again_builds_another_tree
    (na : list DTree → addr → list string) (fuel : nat) :
  "A" ∈ na tree_small 0 →
  learn na (S (S fuel)) table_small init =
    (Ok (), mkState (id3_small (Some 0)) tree_small) ∧
  learn na (S (S fuel)) table_small
      (mkState (id3_small (Some 0)) tree_small) =
    (Ok (),
     mkState (id3_small (Some 3))
       (tree_small ++
        [dtree.mkDTree "y" true None None ∅ None (Some ["A"])])).
Proof.
  intros Hused. split; [apply run_small|].
  unfold learn.
  change (parse_csv table_small ≫= λ _, get_distinct_values ≫= λ _,
            create_tree na (S (S fuel)) None None None)
    with ((parse_csv table_small ≫= λ _, get_distinct_values) ≫= λ _,
            create_tree na (S (S fuel)) None None None).
  unfold mbind at 1, M_bind at 1. rewrite reload_small.
  erewrite create_tree_leaf_frame; cycle 1.
  - reflexivity.
  - eapply (emit_common_leaf na rows_small None _ [("y", 1); ("n", 1)] "y").
    + vm_compute. reflexivity.
    + simpl. lia.
    + unfold remaining_attributes. simpl.
      by rewrite filter_cons_False, filter_nil by (intros H; by apply H).
    + reflexivity.
  - reflexivity.
  - reflexivity.
  - reflexivity.
Qed.

Lemma learn_again_builds_another_tree_witness :
  learn dtree.attributes 2 table_small init =
    (Ok (), mkState (id3_small (Some 0)) tree_small) ∧
  learn dtree.attributes 2 table_small
      (mkState (id3_small (Some 0)) tree_small) =
    (Ok (),
     mkState (id3_small (Some 3))
       (tree_small ++
        [dtree.mkDTree "y" true None None ∅ None (Some ["A"])])).
Proof.
  apply (learn_again_builds_another_tree dtree.attributes 0).
  rewrite (proj1 used_attributes_path). set_solver.
Defined.


(** ** C8: termination *)

(** C8 (fails on the code).  The claim: construction terminates, at a
    depth bounded by the number of independent attributes.  On
    [table_conflict], which has two of them, the run exceeds every
    recursion limit: below the root every frame splits on [B] again and
    recurses on the same two rows.  With [fuel] frames allowed, [fuel]
    nodes are allocated, and each node after the root is an internal
    node on [B] whose parent is the node before it. *)
Theorem conflict_never_returns (fuel : nat) :
  ∃ σ',
    learn dtree.attributes fuel table_conflict init =
      (Raise RecursionLimit, σ') ∧
    attributes (self σ') = ["A"; "B"] ∧
    length (objects σ') = fuel ∧
    (∀ i, 0 < i → i < fuel →
       ∃ nd, objects σ' !! i = Some nd ∧ dtree.attribute nd = "B" ∧
         dtree.leaf nd = false ∧ dtree.parent nd = Some (i - 1)).
Proof.
  rewrite (learn_loaded _ _ _ _ loaded_conflict).
  destruct fuel as [|fuel].
  - eexists. split_and!; [reflexivity..|]. intros i Hi0 Hi. lia.
  - destruct (conflict_root fuel) as (σ' & Hrun & Hself & Hlen & Hchain).
    exists σ'. split_and!; [done| |done|done]. by rewrite Hself.
Qed.


(** ** C9: the bounds of the entropy *)




Section Doubles.

Import Stdlib.Floats.PrimFloat.


End Doubles.


(** ** C10: the base entropy *)

(** C10.  With the value [True] the entropy does not depend on the
    attribute, for attributes the rows have: [entropy(subset, a, True)]
    and [entropy(subset, b, True)] are the same result, and
    [get_base_entropy] is the entropy for any such attribute. *)
Theorem base_entropy_ignores_attribute (this : ID3) (subset : list row)
    (a b : string) :
  rows_have subset a →
  rows_have subset b →
  entropy this subset a (PBool true) = entropy this subset b (PBool true) ∧
  get_base_entropy this subset = entropy this subset a (PBool true).
Proof.
  intros Ha Hb. unfold get_base_entropy, entropy, value_occurrences. split.
  - by rewrite (value_occurrences_loop_bool this subset a b).
  - by rewrite (value_occurrences_loop_dependent this subset a).
Qed.

Lemma base_entropy_ignores_attribute_witness :
  entropy (id3_conflict None) rows_conflict "A" (PBool true) =
    entropy (id3_conflict None) rows_conflict "B" (PBool true) ∧
  get_base_entropy (id3_conflict None) rows_conflict =
    entropy (id3_conflict None) rows_conflict "A" (PBool true).
Proof.
  apply (base_entropy_ignores_attribute (id3_conflict None) rows_conflict
           "A" "B").
  - repeat (apply List.Forall_cons; [eexists; vm_compute; reflexivity|]).
    apply List.Forall_nil.
  - repeat (apply List.Forall_cons; [eexists; vm_compute; reflexivity|]).
    apply List.Forall_nil.
Defined.

(** * Further properties of the inducer *)

(** ** [filter_subset] *)

Lemma filter_subset_ok (subset : list row) attr value :
  rows_have subset attr →
  filter_subset subset attr value =
  Ok (filter (λ r : row, r !! attr = value) subset).
Proof.
  induction 1 as [|r rest [v Hv] _ IH]; [done|].
  cbn [filter_subset]. rewrite (getitem_Some _ _ _ Hv), IH. simpl.
  case_bool_decide as Heq.
  - rewrite filter_cons_True; [done|]. by rewrite Hv.
  - rewrite filter_cons_False; [done|]. by rewrite Hv.
Qed.

Lemma filter_subset_KeyError (subset : list row) attr value :
  ¬ rows_have subset attr →
  filter_subset subset attr value = Raise (KeyError attr).
Proof.
  induction subset as [|r rest IH]; intros Hno.
  - destruct Hno. constructor.
  - cbn [filter_subset]. destruct (r !! attr) as [v|] eqn:Hv.
    + rewrite (getitem_Some _ _ _ Hv). simpl. rewrite IH; [done|].
      intros Hrest. apply Hno. constructor; [by eexists|done].
    + by rewrite (getitem_None _ _ Hv).
Qed.

(** X1.  [filter_subset] raises [KeyError(attr)] exactly when some row
    of the subset lacks the key [attr], whether or not that row would
    have been kept; otherwise it returns, in their order, the rows whose
    field [attr] is [value]. *)
Theorem filter_subset_outcome (subset : list row) (attr : string)
    (value : option string) :
  filter_subset subset attr value =
  if decide (rows_have subset attr)
  then Ok (filter (λ r : row, r !! attr = value) subset)
  else Raise (KeyError attr).
Proof.
  case_decide.
  - by apply filter_subset_ok.
  - by apply filter_subset_KeyError.
Qed.

(** X2.  Filtering is idempotent: filtering the result of
    [filter_subset] again on the same attribute and value gives the same
    rows (and the same exception when the first call raises). *)
Theorem filter_subset_idempotent (subset : list row) (attr : string)
    (value : option string) :
  (filter_subset subset attr value ≫= λ rows, filter_subset rows attr value) =
  filter_subset subset attr value.
Proof.
  destruct (decide (rows_have subset attr)) as [Hhave|Hno].
  - rewrite (filter_subset_ok _ _ _ Hhave). simpl.
    rewrite filter_subset_ok.
    + f_equal. rewrite list_filter_filter. apply list_filter_iff. tauto.
    + unfold rows_have in *. rewrite !Forall_forall in *.
      intros r [? ?]%list_elem_of_filter. auto.
  - by rewrite (filter_subset_KeyError _ _ _ Hno).
Qed.

Lemma rows_have_filter (P : row → Prop) `{∀ r, Decision (P r)}
    (subset : list row) attr :
  rows_have subset attr → rows_have (filter P subset) attr.
Proof.
  unfold rows_have. rewrite !Forall_forall.
  intros Hall r [? ?]%list_elem_of_filter. auto.
Qed.

(** X3.  Filters on two attributes commute: on rows that have both
    attributes, filtering on [a] and then on [b] keeps the same rows, in
    the same order, as filtering on [b] and then on [a]. *)
Theorem filter_subset_commute (subset : list row) (a b : string)
    (v w : option string) :
  rows_have subset a → rows_have subset b →
  (filter_subset subset a v ≫= λ rows, filter_subset rows b w) =
  (filter_subset subset b w ≫= λ rows, filter_subset rows a v).
Proof.
  intros Ha Hb.
  rewrite (filter_subset_ok _ _ v Ha), (filter_subset_ok _ _ w Hb). simpl.
  rewrite !filter_subset_ok by (by apply rows_have_filter).
  f_equal. rewrite !list_filter_filter. apply list_filter_iff. tauto.
Qed.

Lemma filter_subset_commute_witness :
  (filter_subset rows_conflict "A" (Some "a") ≫= λ rows,
     filter_subset rows "B" (Some "b")) =
  (filter_subset rows_conflict "B" (Some "b") ≫= λ rows,
     filter_subset rows "A" (Some "a")).
Proof.
  apply filter_subset_commute; rows_have_tac.
Defined.

Lemma filter_partition (attr : string) (vals : list string) :
  NoDup vals → ∀ subset : list row,
  (∀ r, r ∈ subset → ∃ v, v ∈ vals ∧ r !! attr = Some v) →
  concat ((λ v, filter (λ r : row, r !! attr = Some v) subset) <$> vals)
    ≡ₚ subset.
Proof.
  induction 1 as [|v vals Hv Hnd IH]; intros subset Hcover.
  - destruct subset as [|r ?]; [done|].
    destruct (Hcover r) as (v & Hin & _); [left|]. by apply elem_of_nil in Hin.
  - rewrite fmap_cons. cbn [concat].
    etrans;
      [|apply (filter_app_complement (λ r : row, r !! attr = Some v) subset)].
    apply Permutation_app; [done|].
    assert (((λ w, filter (λ r : row, r !! attr = Some w) subset) <$> vals) =
            ((λ w, filter (λ r : row, r !! attr = Some w)
                     (filter (λ r : row, ¬ r !! attr = Some v) subset))
               <$> vals)) as ->.
    { apply list_fmap_ext. intros _ w Hw%list_elem_of_lookup_2.
      rewrite list_filter_filter. apply list_filter_iff.
      intros r. split; [|tauto]. intros Hr. split; [done|].
      rewrite Hr. intros [= ->]. done. }
    apply IH.
    intros r [Hne Hr]%list_elem_of_filter.
    destruct (Hcover r Hr) as (w & Hw & Hrw). exists w. split; [|done].
    apply elem_of_cons in Hw as [->|]; done.
Qed.

Lemma mapM_filter_subset (subset : list row) attr (vals : list string) :
  rows_have subset attr →
  mapM (λ v, filter_subset subset attr (Some v)) vals =
  Ok ((λ v, filter (λ r : row, r !! attr = Some v) subset) <$> vals).
Proof.
  intros Hhave. apply mapM_result_ok, Forall_forall. intros v _.
  by apply filter_subset_ok.
Qed.

(** X4.  The subsets handed to the children of a node partition the
    node's subset: over a duplicate-free list of values that covers the
    values the rows have for [attr], the results of [filter_subset], one
    per value, together hold every row of the subset exactly once. *)
Theorem filter_subset_partition (subset : list row) (attr : string)
    (vals : list string) :
  NoDup vals →
  (∀ r : row, r ∈ subset → ∃ v, v ∈ vals ∧ r !! attr = Some v) →
  ∃ parts,
    mapM (λ v, filter_subset subset attr (Some v)) vals = Ok parts ∧
    concat parts ≡ₚ subset.
Proof.
  intros Hnd Hcover. eexists. split.
  - apply mapM_filter_subset. apply Forall_forall. intros r Hr.
    destruct (Hcover r Hr) as (v & _ & ->). by eexists.
  - by apply filter_partition.
Qed.

Lemma filter_subset_partition_witness :
  ∃ parts,
    mapM (λ v, filter_subset rows_small "A" (Some v)) ["a"; "b"] = Ok parts ∧
    concat parts ≡ₚ rows_small.
Proof.
  apply filter_subset_partition.
  - repeat constructor; set_solver.
  - intros r Hr. unfold rows_small in Hr.
    apply elem_of_cons in Hr as [->|Hr].
    { exists "a". split; [set_solver|reflexivity]. }
    apply elem_of_cons in Hr as [->|Hr].
    { exists "b". split; [set_solver|reflexivity]. }
    by apply elem_of_nil in Hr.
Defined.
(** ** [attr_counts] and [value_occurrences] *)

Lemma attr_counts_KeyError (subset : list row) attr :
  ¬ rows_have subset attr →
  ∀ c, attr_counts_loop c subset attr = Raise (KeyError attr).
Proof.
  induction subset as [|r rest IH]; intros Hno c.
  - destruct Hno. constructor.
  - cbn [attr_counts_loop]. destruct (r !! attr) as [v|] eqn:Hv.
    + rewrite (getitem_Some _ _ _ Hv). simpl. apply IH.
      intros Hrest. apply Hno. constructor; [by eexists|done].
    + by rewrite (getitem_None _ _ Hv).
Qed.

Lemma column_filter_length (subset : list row) attr v :
  rows_have subset attr →
  length (filter (λ x, x = v) (column subset attr)) =
  length (filter (λ r : row, r !! attr = Some v) subset).
Proof.
  induction 1 as [|r rest [x Hx] _ IH]; [done|].
  unfold column in *. rewrite fmap_cons, Hx. simpl default.
  destruct (decide (x = v)) as [->|Hne].
  - rewrite !filter_cons_True by done. simpl. by rewrite IH.
  - rewrite !filter_cons_False; [done| |done]. rewrite Hx. by intros [= ?].
Qed.

(** X5.  [attr_counts] raises [KeyError(attr)] exactly when some row
    lacks the key [attr].  Otherwise the counter it returns has distinct
    keys and no zero entry, its counts add up to [len(subset)], and
    [counts[v]] is, for every [v], the number of rows that
    [filter_subset(subset, attr, v)] returns. *)
Theorem attr_counts_outcome (subset : list row) (attr : string) :
  match attr_counts subset attr with
  | Ok counts =>
      rows_have subset attr ∧
      NoDup (counter_keys counts) ∧
      Forall (λ kn, 0 < kn.2) counts ∧
      counter_total counts = length subset ∧
      ∀ v, ∃ rows, filter_subset subset attr (Some v) = Ok rows ∧
                   counter_get counts v = length rows
  | Raise e => e = KeyError attr ∧ ¬ rows_have subset attr
  end.
Proof.
  destruct (decide (rows_have subset attr)) as [Hhave|Hno].
  - rewrite (attr_counts_ok _ _ Hhave). split_and!.
    + done.
    + apply tally_from_keys_NoDup. constructor.
    + apply tally_positive.
    + rewrite tally_total. unfold column. by rewrite length_fmap.
    + intros v. eexists. split; [by apply filter_subset_ok|].
      unfold tally. rewrite tally_from_get. simpl.
      by apply column_filter_length.
  - unfold attr_counts. by rewrite (attr_counts_KeyError _ _ Hno).
Qed.

Lemma value_occurrences_loop_filter this (subset : list row) attr v :
  rows_have subset attr →
  ∀ c, value_occurrences_loop this c subset attr (PStr v) =
       attr_counts_loop c (filter (λ r : row, r !! attr = Some v) subset)
         (dependent this).
Proof.
  induction 1 as [|r rest [x Hx] _ IH]; intros c; [done|].
  cbn [value_occurrences_loop]. rewrite (getitem_Some _ _ _ Hx). simpl.
  rewrite orb_false_r. case_bool_decide as Heq.
  - subst x. rewrite filter_cons_True by done. cbn [attr_counts_loop].
    destruct (getitem r (dependent this)); simpl; [apply IH|done].
  - rewrite filter_cons_False; [apply IH|]. rewrite Hx. by intros [= ?].
Qed.

Lemma value_occurrences_loop_all this (subset : list row) attr flag :
  rows_have subset attr →
  ∀ c, value_occurrences_loop this c subset attr (PBool flag) =
       attr_counts_loop c subset (dependent this).
Proof.
  induction 1 as [|r rest [x Hx] _ IH]; intros c; [done|].
  cbn [value_occurrences_loop attr_counts_loop].
  rewrite (getitem_Some _ _ _ Hx). simpl.
  destruct (getitem r (dependent this)); simpl; [apply IH|done].
Qed.

(** X6.  On rows that have [attr], [value_occurrences(subset, attr, v)]
    for a string [v] is [attr_counts] of the dependent attribute over
    [filter_subset(subset, attr, v)], exceptions included; for a boolean
    it is [attr_counts] of the dependent attribute over the whole
    subset. *)
Theorem value_occurrences_attr_counts (this : ID3) (subset : list row)
    (attr : string) (value : pyval) :
  rows_have subset attr →
  value_occurrences this subset attr value =
  match value with
  | PStr v =>
      filter_subset subset attr (Some v) ≫= λ rows,
      attr_counts rows (dependent this)
  | PBool _ => attr_counts subset (dependent this)
  end.
Proof.
  intros Hhave. unfold value_occurrences, attr_counts.
  destruct value as [v|flag].
  - rewrite (filter_subset_ok _ _ _ Hhave). simpl.
    by apply value_occurrences_loop_filter.
  - by apply value_occurrences_loop_all.
Qed.

Lemma value_occurrences_attr_counts_witness :
  value_occurrences (id3_small None) rows_small "A" (PStr "b") =
  (filter_subset rows_small "A" (Some "b") ≫= λ rows,
   attr_counts rows (dependent (id3_small None))).
Proof.
  apply (value_occurrences_attr_counts (id3_small None) rows_small "A"
           (PStr "b")).
  rows_have_tac.
Defined.

Lemma value_occurrences_loop_base this (subset : list row) flag :
  ∀ c, value_occurrences_loop this c subset (dependent this) (PBool flag) =
       attr_counts_loop c subset (dependent this).
Proof.
  induction subset as [|r rest IH]; intros c; [done|].
  cbn [value_occurrences_loop attr_counts_loop].
  destruct (getitem r (dependent this)); simpl; [apply IH|done].
Qed.

(** X7.  The entropy of a value is the base entropy of the filtered
    subset: on rows that have [attr], [entropy(subset, attr, v)] for a
    string [v] equals [get_base_entropy(filter_subset(subset, attr, v))],
    exceptions included. *)
Theorem entropy_filter_base (this : ID3) (subset : list row)
    (attr : string) (v : string) :
  rows_have subset attr →
  entropy this subset attr (PStr v) =
  (filter_subset subset attr (Some v) ≫= λ rows, get_base_entropy this rows).
Proof.
  intros Hhave. rewrite (filter_subset_ok _ _ _ Hhave). simpl.
  unfold get_base_entropy, entropy, value_occurrences.
  by rewrite (value_occurrences_loop_filter _ _ _ _ Hhave),
    value_occurrences_loop_base.
Qed.

Lemma entropy_filter_base_witness :
  entropy (id3_small None) rows_small "A" (PStr "a") =
  (filter_subset rows_small "A" (Some "a") ≫= λ rows,
   get_base_entropy (id3_small None) rows).
Proof.
  apply entropy_filter_base. rows_have_tac.
Defined.
(** ** The numbers [entropy] and [information_gain] return *)

Lemma Rsum_zero (l : list R) :
  Forall (λ x, (0 <= x)%R) l → Rsum l = 0%R → Forall (λ x, x = 0%R) l.
Proof.
  induction 1 as [|x l Hx Hl IH]; [constructor|].
  rewrite Rsum_cons. intros Hsum.
  pose proof (Rsum_nonneg l Hl).
  constructor; [lra|]. apply IH. lra.
Qed.

Lemma plogp_zero (n T : nat) :
  0 < n → n ≤ T → plogp n (INR T) = 0%R → n = T.
Proof.
  intros Hn HnT Hz.
  assert (0 < INR n)%R as Hn' by (by apply lt_0_INR).
  assert (0 < INR T)%R as HT' by (apply lt_0_INR; lia).
  assert (0 < INR n / INR T)%R as Hp by (apply proportion_pos; lia).
  pose proof (plogp_scaled n (INR T)) as Hs. rewrite Hz in Hs.
  assert (ln (INR n / INR T) = 0)%R as Hln by nra.
  rewrite <- ln_1 in Hln. apply ln_inv in Hln; [|done|lra].
  apply INR_eq.
  apply (Rmult_eq_compat_r (INR T)) in Hln.
  unfold Rdiv in Hln. rewrite Rmult_assoc, Rinv_l in Hln; lra.
Qed.

Lemma entropy_value_zero (occs : Counter) :
  Forall (λ kn, 0 < kn.2) occs →
  entropy_value occs = 0%R ↔ length occs ≤ 1.
Proof.
  intros Hpos. split.
  - unfold entropy_value. rewrite entropy_from_sum, Rplus_0_l.
    intros Hz. apply Rsum_zero in Hz.
    + destruct occs as [|[k1 n1] [|[k2 n2] rest]]; [simpl; lia..|].
      exfalso.
      apply Forall_cons in Hz as [Hz1 _]. simpl in Hz1.
      apply Forall_cons in Hpos as [Hp1 Hpos].
      apply Forall_cons in Hpos as [Hp2 _]. simpl in Hp1, Hp2.
      apply plogp_zero in Hz1; [|done|].
      * unfold counter_total in Hz1. rewrite !fmap_cons in Hz1.
        simpl in Hz1. lia.
      * unfold counter_total. rewrite !fmap_cons. simpl. lia.
    + apply Forall_fmap, Forall_forall. intros [key n] Hin. simpl.
      apply plogp_nonneg.
      * rewrite Forall_forall in Hpos. by apply (Hpos (key, n)).
      * by eapply entry_le_total.
  - destruct occs as [|[k1 n1] [|? ?]]; simpl; [done| |lia].
    intros _. apply entropy_value_singleton.
    by apply Forall_cons in Hpos as [? _].
Qed.

Lemma tally_length_pure (l : list string) :
  length (tally l) ≤ 1 ↔ ∀ x y, x ∈ l → y ∈ l → x = y.
Proof.
  pose proof (tally_from_keys_NoDup l [] ltac:(constructor)) as Hnd.
  assert (∀ x, x ∈ counter_keys (tally l) ↔ x ∈ l) as Hkeys.
  { intros x. unfold tally. rewrite tally_from_keys. set_solver. }
  fold (tally l) in Hnd. unfold counter_keys in *.
  rewrite <- (length_fmap fst). destruct ((tally l).*1) as [|k [|k' ks]].
  - split; [|simpl; lia]. intros _ x y Hx%Hkeys. by apply elem_of_nil in Hx.
  - split; [|simpl; lia]. intros _ x y Hx%Hkeys Hy%Hkeys.
    apply list_elem_of_singleton in Hx, Hy. congruence.
  - split; [simpl; lia|]. intros Hall. exfalso.
    apply NoDup_cons in Hnd as [Hk _]. apply Hk.
    rewrite (Hall k k'); [left| |]; apply Hkeys; set_solver.
Qed.

(** X8.  The entropy is zero exactly on pure subsets: on rows that have
    [attr] and the dependent attribute, the number [entropy] returns is
    [0] if and only if all the rows it counts carry the same value of
    the dependent attribute.  (Floats are read as reals.) *)
Theorem entropy_zero_iff_pure (this : ID3) (subset : list row)
    (attr : string) (value : pyval) :
  rows_have subset attr →
  rows_have subset (dependent this) →
  ∃ e, entropy this subset attr value = Ok e ∧
       (e = 0%R ↔
        ∀ r1 r2 : row, r1 ∈ rows_counted attr value subset →
                       r2 ∈ rows_counted attr value subset →
                       r1 !! dependent this = r2 !! dependent this).
Proof.
  intros Ha Hd. eexists. split; [by apply entropy_ok|].
  rewrite occurrences_counted by done.
  rewrite entropy_value_zero by apply tally_positive.
  rewrite tally_length_pure.
  assert (rows_have (rows_counted attr value subset) (dependent this)) as Hc.
  { destruct value; [by apply rows_have_filter|done]. }
  unfold rows_have in Hc. rewrite Forall_forall in Hc.
  unfold column. split.
  - intros Hall r1 r2 H1 H2.
    destruct (Hc r1 H1) as [y1 Hy1], (Hc r2 H2) as [y2 Hy2].
    rewrite Hy1, Hy2. f_equal. apply Hall; apply list_elem_of_fmap.
    + exists r1. by rewrite Hy1.
    + exists r2. by rewrite Hy2.
  - intros Hall x y (r1 & -> & H1)%list_elem_of_fmap
      (r2 & -> & H2)%list_elem_of_fmap.
    by rewrite (Hall r1 r2).
Qed.

Lemma entropy_zero_iff_pure_witness :
  ∃ e, entropy (id3_small None) rows_small "A" (PStr "a") = Ok e ∧
       (e = 0%R ↔
        ∀ r1 r2 : row, r1 ∈ rows_counted "A" (PStr "a") rows_small →
                       r2 ∈ rows_counted "A" (PStr "a") rows_small →
                       r1 !! dependent (id3_small None) =
                       r2 !! dependent (id3_small None)).
Proof.
  apply entropy_zero_iff_pure; rows_have_tac.
Defined.
Lemma gain_term_nonpos this (subset : list row) attr occs (T : nat) v :
  0 < T →
  (gain_term this subset attr occs (INR T) v <= 0)%R.
Proof.
  intros HT. unfold gain_term.
  assert (0 < INR T)%R by (by apply lt_0_INR).
  pose proof (pos_INR (counter_get occs v)).
  pose proof (entropy_value_nonneg (occurrences this subset attr (PStr v))
                (tally_positive _)).
  assert (0 <= INR (counter_get occs v) / INR T)%R.
  { apply Rmult_le_pos; [done|]. left. by apply Rinv_0_lt_compat. }
  nra.
Qed.

Lemma base_entropy_ok this (subset : list row) :
  rows_have subset (dependent this) →
  get_base_entropy this subset =
  Ok (entropy_value (tally (column subset (dependent this)))).
Proof.
  intros Hd. unfold get_base_entropy. rewrite entropy_ok by done.
  by rewrite occurrences_counted.
Qed.

(** X9.  Splitting never looks better than the base entropy allows: on
    a non-empty subset whose rows have [attr] and the dependent
    attribute, [information_gain(subset, attr)] is at most
    [get_base_entropy(subset)].  (Floats are read as reals.) *)
Theorem information_gain_le_base_entropy (this : ID3) (subset : list row)
    (attr : string) (vals : list string) :
  subset ≠ [] →
  rows_have subset attr →
  rows_have subset (dependent this) →
  values this !! attr = Some vals →
  ∃ g b, information_gain this subset attr = Ok g ∧
         get_base_entropy this subset = Ok b ∧ (g <= b)%R.
Proof.
  intros Hne Ha Hd Hvals. do 2 eexists. split_and!.
  - by eapply information_gain_ok.
  - by apply base_entropy_ok.
  - rewrite gain_value_base by done.
    assert (0 < length subset) as HT by (destruct subset; [done|simpl; lia]).
    assert (Rsum (gain_term this subset attr (tally (column subset attr))
                    (INR (length subset)) <$> vals) <= 0)%R; [|lra].
    clear Hvals. induction vals as [|v vals IH].
    + unfold Rsum. simpl. lra.
    + rewrite fmap_cons, Rsum_cons.
      pose proof (gain_term_nonpos this subset attr
                    (tally (column subset attr)) _ v HT). lra.
Qed.

Lemma information_gain_le_base_entropy_witness :
  ∃ g b, information_gain (id3_small None) rows_small "A" = Ok g ∧
         get_base_entropy (id3_small None) rows_small = Ok b ∧ (g <= b)%R.
Proof.
  apply (information_gain_le_base_entropy (id3_small None) rows_small "A"
           ["a"; "b"]).
  - discriminate.
  - rows_have_tac.
  - rows_have_tac.
  - reflexivity.
Defined.


Lemma Rsum_app (l1 l2 : list R) : Rsum (l1 ++ l2) = (Rsum l1 + Rsum l2)%R.
Proof.
  induction l1 as [|x l1 IH].
  - rewrite app_nil_l. change (Rsum []) with 0%R. lra.
  - rewrite <- app_comm_cons, !Rsum_cons, IH. lra.
Qed.

(** The number of occurrences of [x] in [l], as the counter has it. *)
Lemma tally_get (l : list string) (x : string) :
  counter_get (tally l) x = length (filter (λ v, v = x) l).
Proof. unfold tally. by rewrite tally_from_get. Qed.

(** ** Loading the table: [parse_csv] and [get_distinct_values] *)

Lemma dict_of_pairs_snoc (pairs : list (string * string)) k v :
  dict_of_pairs (pairs ++ [(k, v)]) = <[k := v]> (dict_of_pairs pairs).
Proof. unfold dict_of_pairs. by rewrite foldl_snoc. Qed.

Lemma dict_of_pairs_last (pairs : list (string * string)) (k : string) :
  dict_of_pairs pairs !! k = last (filter (λ kv, kv.1 = k) pairs).*2.
Proof.
  induction pairs as [|[k' v'] pairs IH] using rev_ind; [done|].
  rewrite dict_of_pairs_snoc, filter_app, fmap_app.
  destruct (decide (k' = k)) as [->|Hne].
  - rewrite lookup_insert_eq. rewrite filter_cons_True by done.
    simpl. by rewrite last_snoc.
  - rewrite lookup_insert_ne by done. rewrite filter_cons_False by done.
    simpl. by rewrite app_nil_r.
Qed.

Lemma elem_of_zip {A B : Type} (l : list A) (k : list B) x y :
  (x, y) ∈ zip l k ↔ ∃ i, l !! i = Some x ∧ k !! i = Some y.
Proof.
  rewrite list_elem_of_lookup. split.
  - intros [i Hi]. exists i.
    apply lookup_zip_with_Some in Hi as (x' & y' & [= -> ->] & ? & ?). done.
  - intros (i & Hx & Hy). exists i. apply lookup_zip_with_Some. eauto.
Qed.

(** X12.  When the header repeats a name, the last column of that name
    wins: the row dict of a record holds, under a name, the record's
    field in the last column that carries the name, provided the record
    reaches that column. *)
Theorem row_dict_last_column (header r : list string) (i : nat)
    (k v : string) :
  header !! i = Some k →
  (∀ j, i < j → header !! j ≠ Some k) →
  r !! i = Some v →
  dict_of_pairs (zip header r) !! k = Some v.
Proof.
  intros Hk Hlast Hv. rewrite dict_of_pairs_last.
  rewrite <- (take_drop_middle header i k Hk), <- (take_drop_middle r i v Hv).
  assert (length (take i header) = length (take i r)) as Hlen.
  { apply lookup_lt_Some in Hk, Hv. rewrite !length_take. lia. }
  rewrite (zip_with_app pair (take i header) _ (take i r) _ Hlen).
  cbn [zip_with].
  rewrite filter_app, filter_cons_True by done.
  assert (filter (λ kv : string * string, kv.1 = k)
            (zip_with pair (drop (S i) header) (drop (S i) r)) = []) as ->.
  { destruct (filter _ (zip_with pair (drop (S i) header) (drop (S i) r)))
      as [|[k' v'] rest] eqn:Hf; [done|]. exfalso.
    assert ((k', v') ∈ (k', v') :: rest) as Hin by left.
    rewrite <- Hf in Hin. apply list_elem_of_filter in Hin as [? Hin].
    simplify_eq/=.
    apply elem_of_zip in Hin as (j & Hj & _).
    rewrite lookup_drop in Hj. apply (Hlast (S i + j)); [lia|done]. }
  rewrite fmap_app, fmap_cons, fmap_nil. apply last_snoc.
Qed.

Lemma row_dict_last_column_witness :
  dict_of_pairs (zip ["A"; "A"; "Y"] ["a"; "b"; "y"]) !! "A" = Some "b".
Proof.
  apply (row_dict_last_column ["A"; "A"; "Y"] ["a"; "b"; "y"] 1).
  - reflexivity.
  - intros [|[|[|[|j]]]] Hj; try lia; discriminate.
  - reflexivity.
Defined.

Lemma dict_of_pairs_NoDup (pairs : list (string * string)) k v :
  NoDup pairs.*1 →
  dict_of_pairs pairs !! k = Some v ↔ (k, v) ∈ pairs.
Proof.
  induction pairs as [|[k' v'] pairs IH] using rev_ind; intros Hnd.
  - split; [done|]. by intros ?%elem_of_nil.
  - rewrite fmap_app in Hnd. apply NoDup_app in Hnd as (Hnd & Hfresh & _).
    rewrite dict_of_pairs_snoc, elem_of_app, list_elem_of_singleton.
    destruct (decide (k' = k)) as [->|Hne].
    + rewrite lookup_insert_eq. split.
      * intros [= ->]. by right.
      * intros [Hin|[= ->]]; [|done]. exfalso.
        apply (Hfresh k); [|simpl; left].
        apply list_elem_of_fmap. by exists (k, v).
    + rewrite lookup_insert_ne by done. rewrite IH by done.
      split; [by left|]. intros [?|[= ? ?]]; [done|]. by subst.
Qed.

Lemma zip_fst_sublist {A B : Type} (l : list A) (k : list B) :
  (zip l k).*1 `sublist_of` l.
Proof.
  revert k. induction l as [|x l IH]; intros [|y k]; simpl;
    try apply sublist_nil_l.
  by apply sublist_skip.
Qed.

Lemma row_dict_key (header r : list string) (i : nat) (k : string) :
  NoDup header → header !! i = Some k →
  is_Some (dict_of_pairs (zip header r) !! k) ↔ i < length r.
Proof.
  intros Hnd Hk.
  assert (NoDup (zip header r).*1) as Hnd'
    by (eapply (sublist_NoDup _ header); [|apply zip_fst_sublist]; done).
  split.
  - intros [v Hv]. apply dict_of_pairs_NoDup in Hv; [|done].
    apply elem_of_zip in Hv as (j & Hj & Hrj).
    rewrite (NoDup_lookup _ _ _ _ Hnd Hk Hj). by eapply lookup_lt_Some.
  - intros [v Hv]%lookup_lt_is_Some. exists v.
    apply dict_of_pairs_NoDup; [done|]. apply elem_of_zip. eauto.
Qed.

(** X13.  Under a header without repeated names, the row dict of a
    record holds the record's [i]-th field under the header's [i]-th
    name; a record shorter than the header lacks the keys of the columns
    it does not reach. *)
Theorem row_dict_lookup (header r : list string) (i : nat) (k : string) :
  NoDup header →
  header !! i = Some k →
  dict_of_pairs (zip header r) !! k = r !! i.
Proof.
  intros Hnd Hk.
  assert (NoDup (zip header r).*1) as Hnd'
    by (eapply (sublist_NoDup _ header); [|apply zip_fst_sublist]; done).
  destruct (r !! i) as [v|] eqn:Hv.
  - apply dict_of_pairs_NoDup; [done|]. apply elem_of_zip. eauto.
  - destruct (dict_of_pairs (zip header r) !! k) as [v|] eqn:Hd; [|done].
    apply dict_of_pairs_NoDup in Hd; [|done].
    apply elem_of_zip in Hd as (j & Hj & Hrj).
    rewrite (NoDup_lookup _ _ _ _ Hnd Hk Hj) in Hv. congruence.
Qed.

Lemma row_dict_lookup_witness :
  dict_of_pairs (zip ["A"; "B"; "Y"] ["a"; "b"]) !! "Y" = ["a"; "b"] !! 2.
Proof.
  apply row_dict_lookup.
  - repeat constructor; set_solver.
  - reflexivity.
Defined.

Lemma zip_take_header {A B : Type} (l : list A) (k : list B) :
  zip l (take (length l) k) = zip l k.
Proof.
  revert k. induction l as [|x l IH]; intros [|y k]; simpl; [done..|].
  by rewrite IH.
Qed.

(** X14.  Fields beyond the header's length never matter: [learn] on a
    table behaves as on the table whose records are cut to the length
    of the header. *)
Theorem learn_ignores_extra_fields
    (na : list DTree → addr → list string) (fuel : nat)
    (header : list string) (rows : list (list string)) (σ : state) :
  learn na fuel (header :: rows) σ =
  learn na fuel (header :: (take (length header) <$> rows)) σ.
Proof.
  unfold learn, parse_csv. rewrite <- list_fmap_compose.
  assert (((λ r, dict_of_pairs (zip header r)) <$> rows) =
          ((λ r, dict_of_pairs (zip header r)) ∘ take (length header)
             <$> rows)) as <-; [|done].
  apply list_fmap_ext. intros _ r _. simpl. by rewrite zip_take_header.
Qed.

Lemma mapM_getitem_ok (rows : list row) (a : string) :
  rows_have rows a → mapM (λ r, getitem r a) rows = Ok (column rows a).
Proof.
  intros Hhave. apply mapM_result_ok.
  unfold rows_have in Hhave. eapply Forall_impl; [exact Hhave|].
  intros r [v Hv]. cbn beta. by rewrite (getitem_Some _ _ _ Hv), Hv.
Qed.

Lemma mapM_getitem_KeyError (rows : list row) (a : string) :
  ¬ rows_have rows a → mapM (λ r, getitem r a) rows = Raise (KeyError a).
Proof.
  induction rows as [|r rows IH]; intros Hno.
  - destruct Hno. constructor.
  - cbn [mapM]. destruct (r !! a) as [v|] eqn:Hv.
    + rewrite (getitem_Some _ _ _ Hv). simpl. rewrite IH; [done|].
      intros Hrest. apply Hno. constructor; [by eexists|done].
    + by rewrite (getitem_None _ _ Hv).
Qed.

Lemma distinct_values_loop_missing (rows : list row)
    (pre : list string) (a : string) (post : list string) :
  (∀ b, b ∈ pre → rows_have rows b) → ¬ rows_have rows a →
  ∀ m, distinct_values_loop rows m (pre ++ a :: post) = Raise (KeyError a).
Proof.
  intros Hpre Hno. induction pre as [|b pre IH]; intros m.
  - cbn [app distinct_values_loop]. by rewrite (mapM_getitem_KeyError _ _ Hno).
  - cbn [app distinct_values_loop].
    rewrite mapM_getitem_ok by (apply Hpre; left). simpl.
    apply IH. intros b' Hb'. apply Hpre. by right.
Qed.

Lemma distinct_values_loop_raises (rows : list row) (attrs : list string) :
  ∀ m e, distinct_values_loop rows m attrs = Raise e →
  ∃ pre a post, attrs = pre ++ a :: post ∧ e = KeyError a ∧
    (∀ b, b ∈ pre → rows_have rows b) ∧ ¬ rows_have rows a.
Proof.
  induction attrs as [|b attrs IH]; intros m e; cbn [distinct_values_loop];
    [done|].
  destruct (decide (rows_have rows b)) as [Hb|Hno].
  - rewrite (mapM_getitem_ok _ _ Hb). simpl. intros Hloop.
    destruct (IH _ _ Hloop) as (pre & a & post & -> & -> & Hpre & Hno).
    exists (b :: pre), a, post. split_and!; [done..| |done].
    intros b' [->|?]%elem_of_cons; auto.
  - rewrite (mapM_getitem_KeyError _ _ Hno). intros [= <-].
    exists [], b, attrs. split_and!; [done..| |done].
    by intros b' ?%elem_of_nil.
Qed.

(** X15.  [get_distinct_values] returns exactly when every row has
    every attribute of the header.  Then [values] holds, for each header
    name and no other key, the set of the fields of that column (each
    field once, nothing said about the order), and nothing else of the
    inducer changes.  Otherwise it raises [KeyError] for the first
    attribute, in header order, that some row lacks, and [self.values]
    keeps its old value. *)
Theorem get_distinct_values_outcome (σ : state) :
  match get_distinct_values σ with
  | (Ok _, σ') =>
      rows_complete (self σ) ∧
      (∀ a, a ∉ all_attributes (self σ) → values (self σ') !! a = None) ∧
      (∀ a, a ∈ all_attributes (self σ) →
         ∃ vals, values (self σ') !! a = Some vals ∧ NoDup vals ∧
           ∀ v, v ∈ vals ↔
                ∃ r : row, r ∈ data (self σ) ∧ r !! a = Some v) ∧
      dependent (self σ') = dependent (self σ) ∧
      attributes (self σ') = attributes (self σ) ∧
      all_attributes (self σ') = all_attributes (self σ) ∧
      data (self σ') = data (self σ) ∧
      dtree (self σ') = dtree (self σ) ∧ objects σ' = objects σ
  | (Raise e, σ') =>
      σ' = σ ∧
      ∃ pre a post, all_attributes (self σ) = pre ++ a :: post ∧
        e = KeyError a ∧
        (∀ b, b ∈ pre → rows_have (data (self σ)) b) ∧
        ¬ rows_have (data (self σ)) a
  end.
Proof.
  unfold get_distinct_values.
  destruct (distinct_values_loop _ _ _) as [vals|e] eqn:Hloop.
  - apply distinct_values_loop_spec in Hloop as [Hrows Hlook].
    split_and!; try done.
    + intros a Ha. simpl. rewrite Hlook. by rewrite decide_False.
    + intros a Ha. simpl. rewrite Hlook, decide_True by done.
      eexists. split_and!; [done|apply py_set_NoDup|].
      intros v. rewrite elem_of_py_set. unfold column.
      rewrite list_elem_of_fmap. split.
      * intros (r & -> & Hr). exists r. split; [done|].
        specialize (Hrows a Ha). unfold rows_have in Hrows.
        rewrite Forall_forall in Hrows. by destruct (Hrows r Hr) as [? ->].
      * intros (r & Hr & Hv). exists r. by rewrite Hv.
  - split; [done|]. by eapply distinct_values_loop_raises.
Qed.

Lemma tally_snoc (l : list string) (x : string) :
  tally (l ++ [x]) = counter_incr x (tally l).
Proof. unfold tally, tally_from. by rewrite foldl_snoc. Qed.

Lemma py_set_snoc (l : list string) (x : string) :
  py_set (l ++ [x]) = if decide (x ∈ l) then py_set l else py_set l ++ [x].
Proof.
  unfold py_set. rewrite reverse_snoc. cbn [remove_dups].
  destruct (decide_rel elem_of x (reverse l)) as [Hin|Hout].
  - rewrite elem_of_reverse in Hin. by rewrite decide_True.
  - rewrite elem_of_reverse in Hout. rewrite decide_False by done.
    by rewrite reverse_cons.
Qed.

(** The keys of a tally are the set of the values, in the same order. *)
Lemma tally_keys_py_set (l : list string) :
  counter_keys (tally l) = py_set l.
Proof.
  induction l as [|x l IH] using rev_ind; [done|].
  rewrite tally_snoc, counter_keys_incr, py_set_snoc, IH.
  destruct (decide (x ∈ l)).
  - by rewrite decide_True by (by apply elem_of_py_set).
  - by rewrite decide_False by (by rewrite elem_of_py_set).
Qed.

(** X16.  The domain [get_distinct_values] stores for an attribute is
    the list of keys of [attr_counts] over all rows, in the same order:
    every domain value is counted at least once on the whole data. *)
Theorem domain_is_attr_counts_keys (σ σ' : state) (a : string) :
  get_distinct_values σ = (Ok (), σ') →
  a ∈ all_attributes (self σ) →
  ∃ counts, attr_counts (data (self σ')) a = Ok counts ∧
            values (self σ') !! a = Some (counter_keys counts) ∧
            Forall (λ kn, 0 < kn.2) counts.
Proof.
  unfold get_distinct_values.
  destruct (distinct_values_loop _ _ _) as [vals|e] eqn:Hloop; [|done].
  intros [= <-] Ha. simpl.
  apply distinct_values_loop_spec in Hloop as [Hrows Hlook].
  eexists. split_and!.
  - apply attr_counts_ok. by apply Hrows.
  - rewrite Hlook, decide_True by done. by rewrite tally_keys_py_set.
  - apply tally_positive.
Qed.

Lemma domain_is_attr_counts_keys_witness :
  ∃ counts, attr_counts (data (id3_small None)) "A" = Ok counts ∧
            values (id3_small None) !! "A" = Some (counter_keys counts) ∧
            Forall (λ kn, 0 < kn.2) counts.
Proof.
  apply (domain_is_attr_counts_keys
           (mkState (mkID3 "Y" ["A"] ["A"; "Y"] rows_small ∅ None) [])
           (mkState (id3_small None) []) "A").
  - vm_compute. reflexivity.
  - set_solver.
Defined.

(** X17.  A ragged table stops [learn] before any tree is built: under a
    header without repeated names, if the shortest record has [m] fields
    and the header has more, [learn] raises [KeyError] for the header's
    name of column [m].  No node is created and [self.dtree] and
    [self.values] keep their old values, while [self.data] already holds
    the new rows. *)
Theorem learn_short_record_KeyError
    (na : list DTree → addr → list string) (fuel : nat)
    (header : list string) (rows : list (list string)) (σ : state)
    (m : nat) (k : string) (r0 : list string) :
  NoDup header →
  header !! m = Some k →
  r0 ∈ rows → length r0 = m →
  (∀ r, r ∈ rows → m ≤ length r) →
  ∃ σ', learn na fuel (header :: rows) σ = (Raise (KeyError k), σ') ∧
        objects σ' = objects σ ∧
        dtree (self σ') = dtree (self σ) ∧
        values (self σ') = values (self σ) ∧
        data (self σ') = (λ r, dict_of_pairs (zip header r)) <$> rows.
Proof.
  intros Hnd Hk Hr0 Hlen Hmin.
  assert (is_Some (last header)) as [dep Hdep].
  { rewrite last_is_Some. intros ->. done. }
  unfold learn, parse_csv. rewrite Hdep.
  rewrite bind_modify. unfold mbind, M_bind, get_distinct_values. simpl.
  set (rows' := (λ r, dict_of_pairs (zip header r)) <$> rows).
  assert (distinct_values_loop rows' ∅ header = Raise (KeyError k)) as ->.
  2: { eexists. split; [reflexivity|]. done. }
  rewrite <- (take_drop_middle header m k Hk). unfold rows'.
  apply distinct_values_loop_missing.
  - intros b Hb. apply list_elem_of_lookup in Hb as [j Hj].
    pose proof (lookup_lt_Some _ _ _ Hj) as Hjm. rewrite length_take in Hjm.
    rewrite lookup_take_lt in Hj by lia.
    apply Forall_fmap, Forall_forall. intros r Hr. cbn.
    apply (row_dict_key header r j b Hnd Hj). specialize (Hmin r Hr). lia.
  - intros Hall. unfold rows_have in Hall. rewrite Forall_fmap in Hall.
    rewrite Forall_forall in Hall. destruct (Hall r0 Hr0) as [v Hv].
    cbn in Hv. assert (m < length r0); [|lia].
    apply (row_dict_key header r0 m k Hnd Hk). by exists v.
Qed.

Lemma learn_short_record_KeyError_witness :
  ∃ σ', learn dtree.attributes 5 [["A"; "B"; "Y"]; ["a"; "b"; "y"]; ["a"]]
          init = (Raise (KeyError "B"), σ') ∧
        objects σ' = objects init ∧
        dtree (self σ') = dtree (self init) ∧
        values (self σ') = values (self init) ∧
        data (self σ') =
          (λ r, dict_of_pairs (zip ["A"; "B"; "Y"] r)) <$>
            [["a"; "b"; "y"]; ["a"]].
Proof.
  apply (learn_short_record_KeyError dtree.attributes 5 ["A"; "B"; "Y"]
           [["a"; "b"; "y"]; ["a"]] init 1 "B" ["a"]).
  - repeat constructor; set_solver.
  - reflexivity.
  - set_solver.
  - reflexivity.
  - intros r Hr. repeat (apply elem_of_cons in Hr as [->|Hr]);
      [simpl; lia..|by apply elem_of_nil in Hr].
Defined.
Lemma elem_of_concat {A : Type} (x : A) (ls : list (list A)) :
  x ∈ concat ls ↔ ∃ l, x ∈ l ∧ l ∈ ls.
Proof.
  induction ls as [|l ls IH]; cbn [concat].
  - split; [by intros ?%elem_of_nil|]. by intros (? & _ & ?%elem_of_nil).
  - rewrite elem_of_app, IH. split.
    + intros [?|(l' & ? & ?)]; [exists l|exists l']; split; try done;
        [left|by right].
    + intros (l' & ? & [->|?]%elem_of_cons); [by left|right]. by exists l'.
Qed.

Lemma filter_all {A : Type} (P : A → Prop) `{∀ x, Decision (P x)}
    (l : list A) :
  Forall P l → filter P l = l.
Proof.
  induction 1 as [|x l Hx _ IH]; [done|].
  by rewrite filter_cons_True, IH.
Qed.

Lemma elem_of_distinct_values_list (this : ID3) (v : string) :
  v ∈ distinct_values_list this ↔
  ∃ a vals, values this !! a = Some vals ∧ v ∈ vals.
Proof.
  unfold distinct_values_list. rewrite elem_of_concat. split.
  - intros (vals & Hv & Hin). apply list_elem_of_fmap in Hin as ([a vals'] & -> & Hin).
    apply elem_of_map_to_list in Hin. by exists a, vals'.
  - intros (a & vals & Hlook & Hv). exists vals. split; [done|].
    apply list_elem_of_fmap. exists (a, vals). split; [done|].
    by apply elem_of_map_to_list.
Qed.

(** X18.  After [get_distinct_values], [distinct_values_list] holds
    exactly the fields that occur in the data under some attribute of
    the header. *)
Theorem distinct_values_list_loaded (σ σ' : state) (v : string) :
  get_distinct_values σ = (Ok (), σ') →
  v ∈ distinct_values_list (self σ') ↔
  ∃ a (r : row), a ∈ all_attributes (self σ) ∧ r ∈ data (self σ) ∧
                 r !! a = Some v.
Proof.
  unfold get_distinct_values.
  destruct (distinct_values_loop _ _ _) as [vals|e] eqn:Hloop; [|done].
  intros [= <-]. rewrite elem_of_distinct_values_list. simpl.
  apply distinct_values_loop_spec in Hloop as [Hrows Hlook]. split.
  - intros (a & vs & Ha & Hv). rewrite Hlook in Ha.
    case_decide as Hin; [|done]. injection Ha as <-.
    rewrite elem_of_py_set in Hv. unfold column in Hv.
    apply list_elem_of_fmap in Hv as (r & -> & Hr). exists a, r.
    split_and!; [done..|].
    specialize (Hrows a Hin). unfold rows_have in Hrows.
    rewrite Forall_forall in Hrows. by destruct (Hrows r Hr) as [? ->].
  - intros (a & r & Ha & Hr & Hv). exists a, (py_set (column (data (self σ)) a)).
    split; [by rewrite Hlook, decide_True|].
    apply elem_of_py_set. unfold column. apply list_elem_of_fmap.
    exists r. by rewrite Hv.
Qed.

Lemma distinct_values_list_loaded_witness :
  "b" ∈ distinct_values_list (id3_small None) ↔
  ∃ a (r : row), a ∈ ["A"; "Y"] ∧ r ∈ rows_small ∧ r !! a = Some "b".
Proof.
  apply (distinct_values_list_loaded
           (mkState (mkID3 "Y" ["A"] ["A"; "Y"] rows_small ∅ None) [])
           (mkState (id3_small None) []) "b").
  vm_compute. reflexivity.
Defined.

(** X19.  [parse_csv] raises [StopIteration] on an empty file and
    [IndexError] on an empty header line, and then assigns nothing.
    Otherwise the dependent attribute is the name of the last column and
    is never among [attributes], which keep the other names in header
    order; there is one row dict per record; the domains, the tree and
    the nodes are untouched. *)
Theorem parse_csv_outcome (table : list (list string)) (σ : state) :
  match parse_csv table σ with
  | (Ok _, σ') =>
      ∃ header rows, table = header :: rows ∧
        all_attributes (self σ') = header ∧
        last header = Some (dependent (self σ')) ∧
        (dependent (self σ') ∉ attributes (self σ')) ∧
        attributes (self σ') `sublist_of` header ∧
        (∀ a, a ∈ header → a = dependent (self σ') ∨ a ∈ attributes (self σ')) ∧
        (NoDup header → header = attributes (self σ') ++ [dependent (self σ')]) ∧
        length (data (self σ')) = length rows ∧
        values (self σ') = values (self σ) ∧
        dtree (self σ') = dtree (self σ) ∧ objects σ' = objects σ
  | (Raise e, σ') =>
      σ' = σ ∧ (table = [] ∧ e = StopIteration ∨
                (∃ rows, table = [] :: rows) ∧ e = IndexError)
  end.
Proof.
  destruct table as [|header rows]; simpl; [by auto|].
  destruct (last header) as [dep|] eqn:Hlast.
  - simpl. exists header, rows. split_and!; try done.
    + intros [Hne _]%list_elem_of_filter. done.
    + apply sublist_filter.
    + intros a Ha. destruct (decide (a = dep)); [by left|right].
      by apply list_elem_of_filter.
    + intros Hnd. apply last_Some in Hlast as [pre ->].
      rewrite filter_app, filter_cons_False, filter_nil, app_nil_r by naive_solver.
      f_equal. symmetry. apply filter_all.
      apply NoDup_app in Hnd as (_ & Hfresh & _).
      apply Forall_forall. intros a Ha ->. apply (Hfresh dep Ha). left.
    + by rewrite length_fmap.
  - apply last_None in Hlast as ->. simpl. split; [done|]. right.
    split; [by exists rows|done].
Qed.
(** ** Edge cases of [information_gain] and of the frames of [create_tree] *)

(** X20.  On an empty subset [information_gain] raises
    [ZeroDivisionError] as soon as the attribute's domain has a value
    (the weight is [0 / 0.0]); it returns [0] when the domain is empty,
    and raises [KeyError] for an attribute without a domain. *)
Theorem information_gain_empty_subset (this : ID3) (attr : string) :
  information_gain this [] attr =
  match values this !! attr with
  | None => Raise (KeyError attr)
  | Some [] => Ok 0%R
  | Some (_ :: _) => Raise ZeroDivisionError
  end.
Proof.
  destruct (values this !! attr) as [vals|] eqn:Hvals.
  - by apply information_gain_empty.
  - unfold information_gain, get_base_entropy, entropy. simpl.
    unfold values_of. by rewrite Hvals.
Qed.

(** X21.  A frame of [create_tree] whose filtered subset is empty never
    returns and creates no node: it raises [ValueError] ([max] of an
    empty sequence) when no attribute remains, and [ZeroDivisionError]
    when the first remaining attribute has a non-empty domain. *)
Theorem create_tree_empty_subset
    (na : list DTree → addr → list string) (fuel : nat) (σ : state)
    (subset : option (list row)) (parent : option addr)
    (pv : option string) :
  frame_rows σ subset parent pv = Ok [] →
  (∀ a rest, remaining_attributes na σ = a :: rest →
     ∃ v vs, values (self σ) !! a = Some (v :: vs)) →
  create_tree na (S fuel) subset parent pv σ =
  (Raise (if decide (remaining_attributes na σ = []) then ValueError
          else ZeroDivisionError), σ).
Proof.
  intros Hrows Hdom.
  rewrite create_tree_unfold.
  unfold mbind at 1, M_bind at 1. rewrite frame_rows_run, Hrows.
  unfold mbind at 1, M_bind at 1.
  unfold emit_node. rewrite bind_gets.
  change (attr_counts [] (dependent (self σ))) with (Ok ([] : Counter)).
  rewrite bind_lift_ok. rewrite bool_decide_false by (simpl; lia).
  rewrite bind_gets.
  destruct (remaining_attributes na σ) as [|a0 rest] eqn:Hrem.
  - rewrite bool_decide_true by done. by rewrite decide_True.
  - rewrite bool_decide_false by done. rewrite decide_False by done.
    destruct (Hdom a0 rest eq_refl) as (v & vs & Hv).
    cbn [mapM]. rewrite (information_gain_empty _ _ _ Hv). done.
Qed.

Lemma create_tree_empty_subset_witness :
  create_tree (λ _ _, []) 1 (Some rows_first) (Some 0) (Some "b")
    (mkState (id3_small (Some 0)) [dtree.new "A" false None None]) =
  (Raise ZeroDivisionError,
   mkState (id3_small (Some 0)) [dtree.new "A" false None None]).
Proof.
  apply (create_tree_empty_subset (λ _ _, []) 0
           (mkState (id3_small (Some 0)) [dtree.new "A" false None None])
           (Some rows_first) (Some 0) (Some "b")).
  - vm_compute. reflexivity.
  - intros a rest Hrem. vm_compute in Hrem. injection Hrem as <- <-.
    by exists "a", ["b"].
Defined.

Lemma tally_constant (l : list string) (y : string) :
  l ≠ [] → (∀ x, x ∈ l → x = y) → tally l = [(y, length l)].
Proof.
  induction l as [|x l IH] using rev_ind; [done|]. intros _ Hall.
  rewrite tally_snoc, length_app. simpl.
  rewrite (Hall x) by set_solver.
  destruct (decide (l = [])) as [->|Hne]; [done|].
  rewrite IH; [|done|intros; apply Hall; set_solver].
  cbn [counter_incr]. rewrite decide_True by done.
  by rewrite Nat.add_1_r.
Qed.

Lemma pure_counts (rows : list row) (dep y : string) :
  rows ≠ [] →
  (∀ r : row, r ∈ rows → r !! dep = Some y) →
  attr_counts rows dep = Ok [(y, length rows)].
Proof.
  intros Hne Hpure. rewrite attr_counts_ok.
  - f_equal. unfold column.
    rewrite <- (length_fmap (λ r : row, default "" (r !! dep))).
    apply tally_constant.
    + by destruct rows.
    + intros x (r & -> & Hr)%list_elem_of_fmap. by rewrite (Hpure r Hr).
  - apply Forall_forall. intros r Hr. rewrite (Hpure r Hr). by eexists.
Qed.

(** X22.  A frame whose subset is not empty and carries a single value
    [y] of the dependent attribute emits a leaf labelled [y] and does not
    recurse, whatever attributes remain and whatever the recursion limit
    allows beyond this frame; no information gain is computed, so the
    rows need not have any other attribute. *)
Theorem create_tree_pure_leaf
    (na : list DTree → addr → list string) (fuel : nat) (σ : state)
    (subset : option (list row)) (parent : option addr)
    (pv : option string) (rows : list row) (y : string) :
  frame_rows σ subset parent pv = Ok rows →
  rows ≠ [] →
  (∀ r : row, r ∈ rows → r !! dependent (self σ) = Some y) →
  (∀ p, parent = Some p → p < length (objects σ)) →
  ∃ σ' leaf,
    create_tree na (S fuel) subset parent pv σ = (Ok (), σ') ∧
    length (objects σ') = S (length (objects σ)) ∧
    objects σ' !! length (objects σ) = Some leaf ∧
    dtree.attribute leaf = y ∧ dtree.leaf leaf = true ∧
    dtree.parent_value leaf = pv ∧ dtree.children leaf = ∅ ∧
    dtree.parent leaf = parent.
Proof.
  intros Hrows Hne Hpure Hparent.
  pose proof (pure_counts rows (dependent (self σ)) y Hne Hpure) as Hcounts.
  pose proof (emit_pure_leaf na rows pv σ y _ Hcounts) as Hemit.
  destruct (link_node_effect parent (dtree.new y true pv None) σ Hparent)
    as (σ2 & n2 & Hlink & _ & _ & Hlen & _ & Hn2 & Hattr & Hleaf & Hpv & _ &
        Hch & Hpar).
  exists σ2, n2. split_and!; try done.
  - erewrite create_tree_leaf_frame; [| exact Hrows | exact Hemit | |].
    + unfold linked. by rewrite Hlink.
    + unfold linked. rewrite Hlink. exact Hn2.
    + by rewrite Hleaf.
  - rewrite Hpar. by destruct parent.
Qed.

Lemma create_tree_pure_leaf_witness :
  ∃ σ' leaf,
    create_tree dtree.attributes 1 None None None
      (mkState (mkID3 "Y" ["A"] ["A"; "Y"] rows_first ∅ None) []) =
      (Ok (), σ') ∧
    length (objects σ') = 1 ∧
    objects σ' !! 0 = Some leaf ∧
    dtree.attribute leaf = "y" ∧ dtree.leaf leaf = true ∧
    dtree.parent_value leaf = None ∧ dtree.children leaf = ∅ ∧
    dtree.parent leaf = None.
Proof.
  apply (create_tree_pure_leaf dtree.attributes 0
           (mkState (mkID3 "Y" ["A"] ["A"; "Y"] rows_first ∅ None) [])
           None None None rows_first "y").
  - reflexivity.
  - discriminate.
  - intros r Hr. apply list_elem_of_singleton in Hr as ->. reflexivity.
  - discriminate.
Defined.
Lemma max_from_first_nat {A : Type} (key : A → nat) (l : list A) (best : A) :
  ∃ before after,
    best :: l = before ++ max_from Nat.ltb key best l :: after ∧
    Forall (λ x, key x < key (max_from Nat.ltb key best l)) before ∧
    Forall (λ x, key x ≤ key (max_from Nat.ltb key best l)) after.
Proof.
  revert best. induction l as [|x l IH]; intros best; simpl.
  - exists [], []. by repeat constructor.
  - destruct (Nat.ltb (key best) (key x)) eqn:Hlt.
    + apply Nat.ltb_lt in Hlt.
      destruct (IH x) as (before & after & Heq & Hb & Ha).
      set (m := max_from Nat.ltb key x l) in *.
      exists (best :: before), after. split_and!; [by rewrite Heq| |done].
      constructor; [|done].
      destruct before as [|y before]; simpl in Heq.
      * injection Heq as Hx _. by rewrite <- Hx.
      * injection Heq as Hx _. subst y.
        apply Forall_cons in Hb as [Hy _]. lia.
    + apply Nat.ltb_ge in Hlt.
      destruct (IH best) as (before & after & Heq & Hb & Ha).
      set (m := max_from Nat.ltb key best l) in *.
      destruct before as [|y before]; simpl in Heq.
      * injection Heq as Hx Hl.
        exists [], (x :: l). split_and!; [by rewrite <- Hx|done|].
        constructor; [by rewrite <- Hx|]. by rewrite Hl.
      * injection Heq as Hx Hl. subst y.
        exists (best :: x :: before), after.
        split_and!; [by rewrite Hl| |done].
        apply Forall_cons in Hb as [Hy Hb].
        repeat constructor; [done|lia|done].
Qed.

(** X23.  At a frame whose subset carries several values of the
    dependent attribute and where no attribute remains, the node emitted
    is a leaf labelled with a most frequent value of the dependent
    attribute in the subset: a value that occurs in the subset and whose
    count no other value exceeds.  (Which of several values of maximal
    count is taken depends on the order in which the counter is
    enumerated, and is not stated.) *)
Theorem emit_node_majority_leaf
    (na : list DTree → addr → list string) (σ : state)
    (subset : list row) (pv : option string) (counts : Counter) :
  attr_counts subset (dependent (self σ)) = Ok counts →
  1 < length counts →
  remaining_attributes na σ = [] →
  ∃ label,
    emit_node na subset pv σ =
      (Ok (length (objects σ)),
       mkState (self σ) (objects σ ++ [dtree.new label true pv None])) ∧
    (∃ r : row, r ∈ subset ∧ r !! dependent (self σ) = Some label) ∧
    ∀ v, counter_get counts v ≤ counter_get counts label.
Proof.
  intros Hcounts Hlen Hrem.
  pose proof (attr_counts_loop_rows _ _ _ _ Hcounts) as Hdep.
  rewrite (attr_counts_ok _ _ Hdep) in Hcounts. injection Hcounts as <-.
  set (counts := tally (column subset (dependent (self σ)))) in *.
  destruct (counter_keys counts) as [|k0 ks] eqn:Hkeys.
  { unfold counter_keys in Hkeys. apply fmap_nil_inv in Hkeys.
    rewrite Hkeys in Hlen. simpl in Hlen. lia. }
  destruct (max_from_first_nat (counter_get counts) ks k0)
    as (before & after & Heq & Hb & Ha).
  set (label := max_from Nat.ltb (counter_get counts) k0 ks) in *.
  assert (label ∈ counter_keys counts) as Hlabel.
  { rewrite Hkeys, Heq. set_solver. }
  exists label. split_and!.
  - apply (emit_common_leaf na subset pv σ counts).
    + by apply attr_counts_ok.
    + lia.
    + done.
    + by rewrite Hkeys.
  - apply tally_from_keys in Hlabel as [Hin|Hin];
      [by apply elem_of_nil in Hin|].
    unfold column in Hin. apply list_elem_of_fmap in Hin as (r & -> & Hr).
    exists r. split; [done|].
    unfold rows_have in Hdep. rewrite Forall_forall in Hdep.
    by destruct (Hdep r Hr) as [? ->].
  - intros v. destruct (decide (v ∈ counter_keys counts)) as [Hv|Hv].
    + rewrite Hkeys, Heq in Hv. rewrite Forall_forall in Hb, Ha.
      apply elem_of_app in Hv as [Hv|Hv]; [specialize (Hb v Hv); lia|].
      apply elem_of_cons in Hv as [->|Hv]; [done|]. by apply Ha.
    + rewrite (counter_get_keys _ _ Hv). lia.
Qed.

Lemma emit_node_majority_leaf_witness :
  ∃ label,
    emit_node (λ _ _, ["A"; "B"]) rows_conflict None
        (mkState (id3_conflict (Some 0)) []) =
      (Ok 0, mkState (id3_conflict (Some 0)) [dtree.new label true None None]) ∧
    (∃ r : row, r ∈ rows_conflict ∧ r !! "Y" = Some label) ∧
    ∀ v, counter_get [("y", 1); ("n", 1)] v ≤
         counter_get [("y", 1); ("n", 1)] label.
Proof.
  apply (emit_node_majority_leaf (λ _ _, ["A"; "B"])
           (mkState (id3_conflict (Some 0)) []) rows_conflict None
           [("y", 1); ("n", 1)]).
  - vm_compute. reflexivity.
  - simpl. lia.
  - vm_compute. reflexivity.
Defined.
(** ** The nodes [create_tree] builds *)

Lemma emit_node_label na (subset : list row) pv σ n σ' :
  emit_node na subset pv σ = (Ok n, σ') →
  ∃ a lf g, n = length (objects σ) ∧
    σ' = mkState (self σ) (objects σ ++ [dtree.new a lf pv g]) ∧
    (lf = false → a ∈ remaining_attributes na σ) ∧
    (lf = true → ∃ r : row, r ∈ subset ∧ r !! dependent (self σ) = Some a).
Proof.
  assert (∀ counts label,
            attr_counts subset (dependent (self σ)) = Ok counts →
            label ∈ counter_keys counts →
            ∃ r : row, r ∈ subset ∧ r !! dependent (self σ) = Some label)
    as Hlabel.
  { intros counts label Hcounts Hin.
    pose proof (attr_counts_loop_rows _ _ _ _ Hcounts) as Hdep.
    rewrite (attr_counts_ok _ _ Hdep) in Hcounts. injection Hcounts as <-.
    apply tally_from_keys in Hin as [Hin|Hin]; [by apply elem_of_nil in Hin|].
    unfold column in Hin. apply list_elem_of_fmap in Hin as (r & -> & Hr).
    exists r. split; [done|].
    unfold rows_have in Hdep. rewrite Forall_forall in Hdep.
    by destruct (Hdep r Hr) as [? ->]. }
  unfold emit_node. rewrite bind_gets.
  destruct (attr_counts subset (dependent (self σ))) as [counts|e] eqn:Hc;
    [rewrite bind_lift_ok|by rewrite bind_lift_raise].
  case_bool_decide.
  - destruct (counter_keys counts !! 0) as [label|] eqn:Hk;
      [rewrite bind_lift_ok|by rewrite bind_lift_raise].
    intros [= <- <-]. exists label, true, None. split_and!; [done..|].
    intros _. eapply Hlabel; [done|]. by eapply list_elem_of_lookup_2.
  - rewrite bind_gets. case_bool_decide.
    + destruct (py_max Nat.ltb (counter_get counts) (counter_keys counts))
        as [label|] eqn:Hmax;
        [rewrite bind_lift_ok|by rewrite bind_lift_raise].
      intros [= <- <-]. exists label, true, None. split_and!; [done..|].
      intros _. eapply Hlabel; [done|]. by eapply py_max_elem.
    + destruct (mapM _ _) as [igains|] eqn:Hmap;
        [rewrite bind_lift_ok|by rewrite bind_lift_raise].
      destruct (py_max Rltb snd igains) as [[a g]|] eqn:Hmax;
        [rewrite bind_lift_ok|by rewrite bind_lift_raise].
      intros [= <- <-]. exists a, false, (Some g). split_and!; [done..| |done].
      intros _. apply mapM_pairs_fst in Hmap. rewrite <- Hmap.
      apply py_max_elem in Hmax.
      apply (list_elem_of_fmap_2 fst) in Hmax. done.
Qed.

Lemma frame_rows_data σ (subset : option (list row)) parent pv rows :
  frame_rows σ subset parent pv = Ok rows →
  (∀ rows0, subset = Some rows0 → rows0 ⊆ data (self σ)) →
  rows ⊆ data (self σ).
Proof.
  unfold frame_rows. destruct subset as [rows0|]; [|by intros [= <-]].
  destruct parent as [p|]; [|done].
  destruct (objects σ !! p) as [pnode|]; [|done].
  intros Hf Hsub. specialize (Hsub rows0 eq_refl).
  destruct (decide (rows_have rows0 (dtree.attribute pnode))) as [Hh|Hno].
  - rewrite (filter_subset_ok _ _ _ Hh) in Hf. injection Hf as <-.
    intros r [_ Hr]%list_elem_of_filter. by apply Hsub.
  - by rewrite (filter_subset_KeyError _ _ _ Hno) in Hf.
Qed.

Lemma remaining_attributes_sub na σ a :
  a ∈ remaining_attributes na σ → a ∈ attributes (self σ).
Proof.
  unfold remaining_attributes. destruct (dtree (self σ)); [|done].
  by intros [_ ?]%list_elem_of_filter.
Qed.

Lemma node_sound_back (a b : ID3) (nd : DTree) :
  same_data a b → node_sound b nd → node_sound a nd.
Proof.
  intros (Hd & Ha & _ & Hdata & _). unfold node_sound.
  by rewrite Hd, Ha, Hdata.
Qed.

Lemma create_tree_sound na (fuel : nat) :
  ∀ subset parent pv σ σ',
    (∀ p, parent = Some p → p < length (objects σ)) →
    (∀ rows0, subset = Some rows0 → rows0 ⊆ data (self σ)) →
    create_tree na fuel subset parent pv σ = (Ok (), σ') →
    dtree (self σ') = match parent with
                      | None => Some (length (objects σ))
                      | Some _ => dtree (self σ)
                      end ∧
    ∀ i nd, length (objects σ) ≤ i → objects σ' !! i = Some nd →
            node_sound (self σ) nd.
Proof.
  induction fuel as [|fuel IH]; intros subset parent pv σ σ' Hp Hdata Hrun;
    [done|].
  rewrite create_tree_unfold in Hrun.
  apply bind_ok_inv in Hrun as (rows & σ0 & Hsub & Hrun).
  rewrite frame_rows_run in Hsub. injection Hsub as Hrows <-.
  pose proof (frame_rows_data _ _ _ _ _ Hrows Hdata) as Hin.
  apply bind_ok_inv in Hrun as (k' & σ1 & Hemit & Hrun).
  apply emit_node_label in Hemit as (a & lf & g & -> & -> & Hint & Hleaf').
  set (k := length (objects σ)) in *.
  destruct (link_node_effect parent (dtree.new a lf pv g) σ Hp)
    as (σ2 & n2 & Hlink & Hsame & Hroot & Hlen2 & Hlow2 & Hk2 & Hattr & Hleaf &
        _).
  fold k in Hlink, Hlen2, Hlow2, Hk2, Hroot. simpl in Hattr, Hleaf.
  apply bind_ok_inv in Hrun as ([] & σ2' & Hlink' & Hrun).
  rewrite Hlink in Hlink'. injection Hlink' as <-.
  apply bind_ok_inv in Hrun as (n & σ2' & Hload & Hrun).
  apply load_inv in Hload as [-> Hload]. rewrite Hk2 in Hload.
  injection Hload as ->. rewrite Hleaf in Hrun.
  assert (node_sound (self σ) n2) as Hsound2.
  { unfold node_sound. rewrite Hleaf, Hattr. destruct lf.
    - destruct (Hleaf' eq_refl) as (r & Hr & Hy). exists r. split; [|done].
      by apply Hin.
    - by apply (remaining_attributes_sub na), Hint. }
  destruct lf; simpl in Hrun.
  - injection Hrun as <-. split; [done|].
    intros i nd Hi Hnd.
    assert (i = k) as -> by (apply lookup_lt_Some in Hnd; lia).
    congruence.
  - rewrite bind_gets in Hrun.
    apply bind_ok_inv in Hrun as (vals & σ2' & Hvals & Hrun).
    apply lift_inv in Hvals as [_ ->].
    set (J := λ (_ : list string) (σi : state),
      same_data (self σ) (self σi) ∧
      dtree (self σi) = dtree (self σ2) ∧
      k < length (objects σi) ∧
      ∀ i nd, k ≤ i → objects σi !! i = Some nd → node_sound (self σ) nd).
    assert (J vals σ') as (_ & Hd & _ & Hall).
    { eapply (for_each_inv _ J); [| |exact Hrun].
      - unfold J. split_and!; [done|done|lia|].
        intros i nd Hi Hnd.
        assert (i = k) as -> by (apply lookup_lt_Some in Hnd; lia).
        congruence.
      - clear Hrun. intros done v σi σj (Hs & Hd & Hl & Hall) Hbody.
        pose proof Hbody as Hframe.
        apply create_tree_frame in Hframe; [|intros p [= <-]; lia].
        destruct Hframe as (Es & El & Elow & _ & _).
        apply IH in Hbody as [Ed Enew]; [|intros p [= <-]; lia|].
        2: { intros rows0 [= <-]. destruct Hs as (_ & _ & _ & <- & _). done. }
        unfold J. split_and!.
        + by eapply same_data_trans.
        + congruence.
        + lia.
        + intros i nd Hi Hnd.
          destruct (decide (length (objects σi) ≤ i)) as [Hge|Hlt].
          * eapply node_sound_back; [exact Hs|]. by eapply Enew.
          * rewrite Elow in Hnd by lia. case_decide.
            -- destruct (objects σi !! i) as [nd0|] eqn:Hnd0; [|done].
               injection Hnd as <-. by apply (Hall i nd0).
            -- by apply (Hall i nd). }
    split; [by rewrite Hd|done].
Qed.
(** X24.  Every node a returning run of [learn] creates is sound: an
    internal node tests an independent attribute, never the dependent
    one, and a leaf predicts a value of the domain of the dependent
    attribute, that is a label some row of the table carries. *)
Theorem learn_nodes_sound
    (na : list DTree → addr → list string) (fuel : nat)
    (table : list (list string)) (σ σ' : state) :
  learn na fuel table σ = (Ok (), σ') →
  ∀ i nd, length (objects σ) ≤ i → objects σ' !! i = Some nd →
    if dtree.leaf nd
    then ∃ vals, values (self σ') !! dependent (self σ') = Some vals ∧
                 dtree.attribute nd ∈ vals
    else dtree.attribute nd ∈ attributes (self σ') ∧
         dtree.attribute nd ≠ dependent (self σ').
Proof.
  intros Hrun i nd Hi Hnd.
  apply learn_inv in Hrun as [(e & ? & _)|Hrun]; [done|].
  destruct Hrun as (σa & header & rows & dep & _ & Hlast & Hdep & Hattrs &
                    Hall & _ & _ & Hobjs & Hdom & _ & Hrun).
  pose proof Hrun as Hframe.
  apply create_tree_frame in Hframe as (Hsame & _); [|done].
  apply create_tree_sound in Hrun as [_ Hsound]; [|done..].
  rewrite Hobjs in Hsound. specialize (Hsound i nd Hi Hnd).
  destruct Hsame as (Hd & Ha & _ & _ & Hv).
  unfold node_sound in Hsound. rewrite <- Hd, <- Ha, <- Hv.
  destruct (dtree.leaf nd).
  - destruct Hsound as (r & Hr & Hy).
    exists (py_set (column (data (self σa)) (dependent (self σa)))). split.
    + rewrite Hdom, decide_True; [done|]. rewrite Hall, Hdep.
      apply last_Some in Hlast as [pre ->]. set_solver.
    + apply elem_of_py_set. unfold column. apply list_elem_of_fmap.
      exists r. by rewrite Hy.
  - rewrite Hattrs in Hsound |- *. rewrite Hdep.
    split; [done|]. by apply list_elem_of_filter in Hsound as [? _].
Qed.

Lemma learn_nodes_sound_witness :
  ∃ vals, values (id3_small (Some 0)) !! "Y" = Some vals ∧ "y" ∈ vals.
Proof.
  refine (learn_nodes_sound dtree.attributes 2 table_small init
            (mkState (id3_small (Some 0)) tree_small) (run_small _ 0) 1
            (dtree.mkDTree "y" true (Some "a") None ∅ (Some 0) None) _ _).
  - simpl. lia.
  - reflexivity.
Defined.

(** X25.  A returning run of [learn] only adds nodes: the nodes that
    existed before are left as they were, and [self.dtree] is the first
    node the run allocates, a node without parent and without parent
    value. *)
Theorem learn_root_is_new
    (na : list DTree → addr → list string) (fuel : nat)
    (table : list (list string)) (σ σ' : state) :
  learn na fuel table σ = (Ok (), σ') →
  dtree (self σ') = Some (length (objects σ)) ∧
  take (length (objects σ)) (objects σ') = objects σ ∧
  ∃ root, objects σ' !! length (objects σ) = Some root ∧
          dtree.parent root = None ∧ dtree.parent_value root = None.
Proof.
  intros Hrun.
  apply learn_inv in Hrun as [(e & ? & _)|Hrun]; [done|].
  destruct Hrun as (σa & header & rows & dep & _ & _ & _ & _ & _ & _ & _ &
                    Hobjs & _ & _ & Hrun).
  pose proof Hrun as Hframe.
  apply create_tree_frame in Hframe as (_ & Hlen & Hlow & Hroot & _); [|done].
  apply create_tree_sound in Hrun as [Hd _]; [|done..].
  rewrite Hobjs in *. split_and!.
  - done.
  - apply list_eq. intros i.
    destruct (decide (i < length (objects σ))) as [Hi|Hi].
    + rewrite lookup_take_lt by done. rewrite Hlow by done.
      by rewrite decide_False.
    + rewrite lookup_take_ge by lia. symmetry. apply lookup_ge_None. lia.
  - destruct Hroot as (root & ? & ? & ?). by exists root.
Qed.

Lemma learn_root_is_new_witness :
  dtree (id3_small (Some 0)) = Some (length (objects init)) ∧
  take (length (objects init)) tree_small = objects init ∧
  ∃ root, tree_small !! length (objects init) = Some root ∧
          dtree.parent root = None ∧ dtree.parent_value root = None.
Proof.
  apply (learn_root_is_new dtree.attributes 2 table_small init
           (mkState (id3_small (Some 0)) tree_small)).
  apply run_small.
Defined.
Lemma dict_of_pairs_is_Some (pairs : list (string * string)) (k : string) :
  k ∈ pairs.*1 → is_Some (dict_of_pairs pairs !! k).
Proof.
  induction pairs as [|[k' v'] pairs IH] using rev_ind.
  - by intros ?%elem_of_nil.
  - rewrite fmap_app, elem_of_app, dict_of_pairs_snoc. intros Hin.
    destruct (decide (k' = k)) as [->|Hne].
    + rewrite lookup_insert_eq. by eexists.
    + rewrite lookup_insert_ne by done. apply IH.
      destruct Hin as [?|Hin]; [done|].
      apply list_elem_of_singleton in Hin. simpl in Hin. congruence.
Qed.

Lemma distinct_values_loop_ok (rows : list row) (attrs : list string) :
  (∀ a, a ∈ attrs → rows_have rows a) →
  ∀ m, ∃ m', distinct_values_loop rows m attrs = Ok m'.
Proof.
  induction attrs as [|a attrs IH]; intros Hall m; cbn [distinct_values_loop].
  - by eexists.
  - rewrite mapM_getitem_ok by (apply Hall; left). simpl.
    apply IH. intros b Hb. apply Hall. by right.
Qed.

Lemma row_dict_final (header r : list string) (dep y : string) :
  last header = Some dep → r !! (length header - 1) = Some y →
  dict_of_pairs (zip header r) !! dep = Some y.
Proof.
  intros [pre ->]%last_Some Hy. rewrite length_app in Hy. simpl in Hy.
  replace (length pre + 1 - 1) with (length pre) in Hy by lia.
  rewrite <- (take_drop_middle r _ y Hy).
  assert (length pre = length (take (length pre) r)) as Hlen.
  { apply lookup_lt_Some in Hy. rewrite length_take. lia. }
  rewrite (zip_with_app pair pre _ (take (length pre) r) _ Hlen).
  cbn [zip_with]. rewrite dict_of_pairs_snoc. apply lookup_insert_eq.
Qed.

(** X26.  A table with a single label learns a one-leaf tree: if the
    table has at least one record, every record reaches the last column
    and all records carry the same field [y] there, [learn] returns,
    with any recursion limit that admits one frame, and [self.dtree] is
    a new leaf labelled [y]. *)
Theorem learn_single_label
    (na : list DTree → addr → list string) (fuel : nat)
    (header : list string) (rows : list (list string)) (σ : state)
    (y : string) :
  header ≠ [] →
  rows ≠ [] →
  (∀ r, r ∈ rows → r !! (length header - 1) = Some y) →
  ∃ σ' leaf,
    learn na (S fuel) (header :: rows) σ = (Ok (), σ') ∧
    dtree (self σ') = Some (length (objects σ)) ∧
    length (objects σ') = S (length (objects σ)) ∧
    objects σ' !! length (objects σ) = Some leaf ∧
    dtree.attribute leaf = y ∧ dtree.leaf leaf = true ∧
    dtree.children leaf = ∅.
Proof.
  intros Hheader Hrows Hlabel.
  assert (is_Some (last header)) as [dep Hdep] by (by rewrite last_is_Some).
  unfold learn, parse_csv. rewrite Hdep, bind_modify.
  set (rows' := (λ r, dict_of_pairs (zip header r)) <$> rows).
  assert (∀ r', r' ∈ rows' → r' !! dep = Some y) as Hpure.
  { intros r' (r & -> & Hr)%list_elem_of_fmap.
    apply row_dict_final; [done|]. by apply Hlabel. }
  assert (∀ a, a ∈ header → rows_have rows' a) as Hcomplete.
  { intros a Ha. apply Forall_forall.
    intros r' (r & -> & Hr)%list_elem_of_fmap.
    apply dict_of_pairs_is_Some. rewrite fst_zip; [done|].
    specialize (Hlabel r Hr). apply lookup_lt_Some in Hlabel. lia. }
  destruct (distinct_values_loop_ok rows' header Hcomplete ∅) as [vals Hvals].
  unfold mbind at 1, M_bind at 1, get_distinct_values. simpl.
  fold rows'. rewrite Hvals.
  set (σ2 := mkState _ _).
  assert (rows' ≠ []) as Hne by (unfold rows'; by destruct rows).
  pose proof (pure_counts rows' dep y Hne Hpure) as Hcounts.
  pose proof (emit_pure_leaf na rows' None σ2 y _ Hcounts) as Hemit.
  destruct (link_node_effect None (dtree.new y true None None) σ2
              ltac:(done))
    as (σ3 & n3 & Hlink & _ & Hroot & Hlen & _ & Hn3 & Hattr & Hleaf & _ & _ &
        Hch & _).
  exists σ3, n3. split_and!; try done.
  change (create_tree na (S fuel) None None None σ2 = (Ok (), σ3)).
  erewrite create_tree_leaf_frame; [| reflexivity | exact Hemit | |].
  - unfold linked. by rewrite Hlink.
  - unfold linked. rewrite Hlink. exact Hn3.
  - by rewrite Hleaf.
Qed.

Lemma learn_single_label_witness :
  ∃ σ' leaf,
    learn dtree.attributes 1 [["A"; "Y"]; ["a"; "y"]; ["b"; "y"]] init =
      (Ok (), σ') ∧
    dtree (self σ') = Some (length (objects init)) ∧
    length (objects σ') = S (length (objects init)) ∧
    objects σ' !! length (objects init) = Some leaf ∧
    dtree.attribute leaf = "y" ∧ dtree.leaf leaf = true ∧
    dtree.children leaf = ∅.
Proof.
  apply (learn_single_label dtree.attributes 0 ["A"; "Y"]
           [["a"; "y"]; ["b"; "y"]] init "y").
  - discriminate.
  - discriminate.
  - intros r Hr. repeat (apply elem_of_cons in Hr as [->|Hr]);
      [reflexivity..|by apply elem_of_nil in Hr].
Defined.
Lemma Rsum_zeros {A : Type} (f : A → R) (l : list A) :
  (∀ x, x ∈ l → f x = 0%R) → Rsum (f <$> l) = 0%R.
Proof.
  induction l as [|x l IH]; intros Hz; [done|].
  rewrite fmap_cons, Rsum_cons, (Hz x) by left.
  rewrite IH; [lra|]. intros y Hy. apply Hz. by right.
Qed.

(** X27.  An attribute that has the same value on every row of the
    subset gains nothing: [information_gain(subset, attr)] is exactly
    [0] when that value is in the attribute's domain, the domain having
    no duplicates.  (Floats are read as reals.) *)
Theorem information_gain_constant_attribute (this : ID3)
    (subset : list row) (attr : string) (vals : list string) (v0 : string) :
  subset ≠ [] →
  rows_have subset (dependent this) →
  (∀ r : row, r ∈ subset → r !! attr = Some v0) →
  values this !! attr = Some vals →
  NoDup vals →
  v0 ∈ vals →
  information_gain this subset attr = Ok 0%R.
Proof.
  intros Hne Hd Hconst Hvals Hnd Hv0.
  assert (rows_have subset attr) as Ha.
  { apply Forall_forall. intros r Hr. rewrite (Hconst r Hr). by eexists. }
  rewrite (information_gain_ok _ _ _ _ Hne Ha Hd Hvals). f_equal.
  rewrite gain_value_base by done.
  assert (0 < INR (length subset))%R as HN.
  { apply lt_0_INR. destruct subset; [done|simpl; lia]. }
  assert (∀ v, counter_get (tally (column subset attr)) v =
               if decide (v = v0) then length subset else 0) as Hget.
  { intros v. rewrite tally_get, column_filter_length by done.
    case_decide as Hv.
    - subst v. rewrite filter_all; [done|]. by apply Forall_forall.
    - destruct (filter _ subset) as [|r rest] eqn:Hf; [done|]. exfalso.
      assert (r ∈ r :: rest) as Hin by left. rewrite <- Hf in Hin.
      apply list_elem_of_filter in Hin as [Hrv Hr].
      rewrite (Hconst r Hr) in Hrv. congruence. }
  apply list_elem_of_split in Hv0 as (pre & post & ->).
  apply NoDup_app in Hnd as (_ & Hpre & Hpost).
  apply NoDup_cons in Hpost as [Hpost _].
  rewrite fmap_app, Rsum_app, fmap_cons, Rsum_cons.
  rewrite !Rsum_zeros.
  - unfold gain_term. rewrite Hget, decide_True by done.
    rewrite occurrences_counted by done. simpl rows_counted.
    rewrite filter_all by (by apply Forall_forall).
    field. lra.
  - intros v Hv. unfold gain_term. rewrite Hget, decide_False.
    + simpl INR. unfold Rdiv. lra.
    + intros ->. done.
  - intros v Hv. unfold gain_term. rewrite Hget, decide_False.
    + simpl INR. unfold Rdiv. lra.
    + intros ->. apply (Hpre v0 Hv). left.
Qed.

Lemma information_gain_constant_attribute_witness :
  information_gain (id3_conflict None) rows_conflict "A" = Ok 0%R.
Proof.
  apply (information_gain_constant_attribute (id3_conflict None)
           rows_conflict "A" ["a"] "a").
  - discriminate.
  - rows_have_tac.
  - intros r Hr. unfold rows_conflict in Hr.
    repeat (apply elem_of_cons in Hr as [->|Hr]);
      [reflexivity..|by apply elem_of_nil in Hr].
  - reflexivity.
  - repeat constructor; set_solver.
  - set_solver.
Defined.

(** X28.  In the tree a run of [learn] on a fresh inducer has built when
    it returns, every internal node has exactly one child per value of
    the domain of its split attribute, the domain being the set of the
    fields of that column over all rows: the keys of [children] are the
    domain values, there are as many children as values, and the child
    under a key records that key and this node as its parent.  (A run in
    which the subset of some node lacks a value of the domain does not
    return.) *)
Theorem learn_returning_nodes_complete
    (na : list DTree → addr → list string) (fuel : nat)
    (table : list (list string)) (σ' : state) :
  learn na fuel table init = (Ok (), σ') →
  ∀ n node, objects σ' !! n = Some node → dtree.leaf node = false →
    ∃ vals,
      values (self σ') !! dtree.attribute node = Some vals ∧
      NoDup vals ∧
      (∀ v, v ∈ vals ↔
            ∃ r : row, r ∈ data (self σ') ∧
                       r !! dtree.attribute node = Some v) ∧
      dom (dtree.children node) = list_to_set (Some <$> vals) ∧
      size (dtree.children node) = length vals ∧
      ∀ key c, dtree.children node !! key = Some c →
        ∃ child, objects σ' !! c = Some child ∧
          dtree.parent_value child = key ∧ dtree.parent child = Some n.
Proof.
  intros Hrun n node Hnode Hint.
  apply learn_inv in Hrun as [(e & ? & _)|Hrun]; [done|].
  destruct Hrun as (σa & header & rows & dep & _ & _ & _ & _ & _ & _ & _ &
                    Hobjs & Hdom & Hcomplete' & Hrun).
  apply create_tree_frame in Hrun; [|done].
  destruct Hrun as (Hsame & _ & _ & _ & Hcomplete).
  destruct (Hcomplete n ltac:(rewrite Hobjs; simpl; lia) node Hnode Hint)
    as (vals & Hvals & Hkeys & Hch).
  destruct Hsame as (_ & _ & _ & Hdata & Hv).
  rewrite Hdom in Hvals. case_decide as Hin; [|done].
  injection Hvals as <-.
  set (a := dtree.attribute node) in *.
  assert (NoDup (py_set (column (data (self σa)) a))) as Hnd
    by apply py_set_NoDup.
  eexists. split_and!.
  - rewrite <- Hv, Hdom. by rewrite decide_True.
  - done.
  - intros v. rewrite elem_of_py_set, <- Hdata. unfold column.
    rewrite list_elem_of_fmap. split.
    + intros (r & -> & Hr). exists r. split; [done|].
      specialize (Hcomplete' a Hin). unfold rows_have in Hcomplete'.
      rewrite Forall_forall in Hcomplete'.
      by destruct (Hcomplete' r Hr) as [? ->].
    + intros (r & Hr & Hrv). exists r. by rewrite Hrv.
  - done.
  - rewrite <- size_dom, Hkeys, size_list_to_set, length_fmap; [done|].
    apply NoDup_fmap; [|done]. by intros ?? [= ->].
  - intros key c Hc. destruct (Hch key c Hc) as (_ & child & ?). by exists child.
Qed.

Lemma learn_returning_nodes_complete_witness :
  ∃ vals,
    values (id3_small (Some 0)) !! "A" = Some vals ∧
    NoDup vals ∧
    (∀ v, v ∈ vals ↔
          ∃ r : row, r ∈ rows_small ∧ r !! "A" = Some v) ∧
    dom (<[Some "b" := 2]> (<[Some "a" := 1]> (∅ : gmap (option string) addr)))
      = list_to_set (Some <$> vals) ∧
    size (<[Some "b" := 2]> (<[Some "a" := 1]> (∅ : gmap (option string) addr)))
      = length vals ∧
    ∀ key c,
      <[Some "b" := 2]> (<[Some "a" := 1]> (∅ : gmap (option string) addr))
        !! key = Some c →
      ∃ child, tree_small !! c = Some child ∧
        dtree.parent_value child = key ∧ dtree.parent child = Some 0.
Proof.
  exact (learn_returning_nodes_complete dtree.attributes 2 table_small
           (mkState (id3_small (Some 0)) tree_small) (run_small _ 0) 0
           (dtree.mkDTree "A" false None
              (Some (gain_value (id3_small None) rows_small "A" ["a"; "b"]))
              (<[Some "b" := 2]> (<[Some "a" := 1]> ∅)) None (Some ["A"]))
           eq_refl eq_refl).
Defined.
